(** * Minesweeper knowledge base (src/minesweeper.py)

    A shallow embedding of the classes [Minesweeper], [Sentence] and
    [MinesweeperAI], and the properties of the inference engine.

    Modelling choices.
    - A cell is a tuple of two Python ints: [Z * Z].
    - A Python [set] of cells is a [gset Cell]; [len] is [size] seen in [Z].
    - A [Sentence] object is a record of its two fields.  [self.knowledge] is
      a Python list of such objects.  Every element of the list is created by
      a fresh [Sentence(...)] in [add_knowledge] and stored once, so a stored
      object is identified by the slot it occupies: the list is modelled as
      the list of the current field values, and a loop variable bound to one
      of its objects as a reference ([sref]) that follows the object through
      the deletions.
    - [list.remove(x)] deletes the first element [e] with [e is x or e == x];
      [Sentence.__eq__] compares [cells] and [count], so this is the first
      element equal to [x] by value, and [ValueError] is raised when there is
      none.
    - A [for] loop over a list that is mutated in its body follows CPython's
      list iterator: an index that is compared with the current length
      before every step.
    - [idx1 is not idx2] compares the identity of two indexes that two
      [enumerate] objects made.  CPython shares the int objects of -5 to
      256 and makes a new object for every larger index, so the test holds
      when the indexes differ and also when they are equal and above 256.
    - A [for] loop over a set visits its elements in an unspecified order; it
      is modelled by a fold over [elements].  The loops of this kind only call
      [mark_safe] / [mark_mine], whose effect does not depend on the order
      ([mark_safe_cells_perm], [mark_mine_cells_perm]).
    - [set.pop()], [list(a_set)] and [random.randint] are oracles of the move
      selectors, each with its contract.
    - An exception leaves the mutations done before it: a method that may
      raise gives back the state together with its outcome.
    - [Minesweeper.__init__] draws the mines at random; a board is any value
      of the record, and a clue is what [is_mine] and [nearby_mines] answer
      on it. *)

From stdpp Require Import gmap sets list fin_sets.
From Stdlib Require Import ZArith Lia.

Local Open Scope Z_scope.

#[local] Set Warnings "-clear-no-such-hyp".

Definition Cell : Type := (Z * Z)%type.

Abbreviation cellset := (gset Cell).

(** The exceptions that appear in the module. *)
Inductive exn : Type := ValueError | IndexError | AttributeError | TypeError.

(** Python's [len] of a set. *)
Definition len (s : cellset) : Z := Z.of_nat (size s).

(** ** class Sentence *)

Record Sentence : Type := mkSentence {
  cells : cellset;
  count : Z
}.

#[global] Instance Sentence_eq_dec : EqDecision Sentence.
Proof. solve_decision. Defined.

Module Sentence_.

(** [Sentence.mark_mine]: when the cell belongs to the sentence it is
    removed and the count goes down by one. *)
Definition mark_mine (cell : Cell) (s : Sentence) : Sentence :=
  if decide (cell ∉ cells s) then s
  else {| cells := cells s ∖ {[cell]}; count := count s - 1 |}.

(** [Sentence.mark_safe]: when the cell belongs to the sentence it is
    removed; the count is kept. *)
Definition mark_safe (cell : Cell) (s : Sentence) : Sentence :=
  if decide (cell ∉ cells s) then s
  else {| cells := cells s ∖ {[cell]}; count := count s |}.

End Sentence_.

(** ** class MinesweeperAI: the state *)

Record MinesweeperAI : Type := mkMinesweeperAI {
  height : Z;
  width : Z;
  moves_made : cellset;
  mines : cellset;
  safes : cellset;
  knowledge : list Sentence
}.

(** [MinesweeperAI.__init__]. *)
Definition init (h w : Z) : MinesweeperAI :=
  {| height := h; width := w; moves_made := ∅; mines := ∅; safes := ∅;
     knowledge := [] |}.

Definition set_knowledge (k : list Sentence) (st : MinesweeperAI) : MinesweeperAI :=
  {| height := height st; width := width st; moves_made := moves_made st;
     mines := mines st; safes := safes st; knowledge := k |}.

(** [MinesweeperAI.mark_mine]. *)
Definition mark_mine (cell : Cell) (st : MinesweeperAI) : MinesweeperAI :=
  {| height := height st; width := width st; moves_made := moves_made st;
     mines := {[cell]} ∪ mines st; safes := safes st;
     knowledge := Sentence_.mark_mine cell <$> knowledge st |}.

(** [MinesweeperAI.mark_safe]. *)
Definition mark_safe (cell : Cell) (st : MinesweeperAI) : MinesweeperAI :=
  {| height := height st; width := width st; moves_made := moves_made st;
     mines := mines st; safes := {[cell]} ∪ safes st;
     knowledge := Sentence_.mark_safe cell <$> knowledge st |}.

(** [for c in cs: self.mark_mine(c)] and [for c in cs: self.mark_safe(c)],
    over the cells in the order they are visited. *)
Definition mark_mine_cells (cs : list Cell) (st : MinesweeperAI) : MinesweeperAI :=
  foldl (λ st c, mark_mine c st) st cs.

Definition mark_safe_cells (cs : list Cell) (st : MinesweeperAI) : MinesweeperAI :=
  foldl (λ st c, mark_safe c st) st cs.

(** [MinesweeperAI.surrounding_cells]: the set literal of the eight
    neighbours, then the four filters. *)
Definition neighbours8 (cell : Cell) : list Cell :=
  let '(row, col) := cell in
  [(row - 1, col - 1); (row, col - 1); (row + 1, col - 1); (row - 1, col);
   (row + 1, col); (row - 1, col + 1); (row, col + 1); (row + 1, col + 1)].

Definition surrounding_cells (st : MinesweeperAI) (cell : Cell) : cellset :=
  let s0 : cellset := list_to_set (neighbours8 cell) in
  let s1 : cellset := filter (λ x : Cell, 0 <= x.1) s0 in
  let s2 : cellset := filter (λ x : Cell, x.1 < height st) s1 in
  let s3 : cellset := filter (λ x : Cell, 0 <= x.2) s2 in
  filter (λ x : Cell, x.2 < width st) s3.

(** Outcome of a method that may raise: the state is kept in both cases,
    since the mutations done before the exception stay. *)
Inductive outcome : Type := Returned | Raised (e : exn).

(** What a method gives back: the state it leaves and how it ended. *)
Abbreviation effect := (MinesweeperAI * outcome)%type.

(** [self.knowledge.remove(x)]: position of the first element equal to [x]. *)
Fixpoint index_of (x : Sentence) (l : list Sentence) : option nat :=
  match l with
  | [] => None
  | y :: l' => if decide (y = x) then Some 0%nat else S <$> index_of x l'
  end.

Definition list_remove (x : Sentence) (st : MinesweeperAI) : effect :=
  match index_of x (knowledge st) with
  | Some k => (set_knowledge (delete k (knowledge st)) st, Returned)
  | None => (st, Raised ValueError)
  end.

(** Sequencing of two steps: an exception stops the second one. *)
Definition and_then (r : effect) (k : MinesweeperAI → effect) : effect :=
  match r.2 with
  | Returned => k r.1
  | Raised _ => r
  end.

Notation "r >>> k" := (and_then r k) (at level 61, left associativity).

(** *** References to sentence objects

    A loop variable holds a Sentence object that marking mutates through the
    list.  A reference is the slot the object occupies as long as it is in
    the list, with the fields it had when it was last read: a stored object
    is read through its slot, a removed one keeps the fields it left
    with. *)
Definition sref : Type := (option nat * Sentence)%type.

Definition deref (st : MinesweeperAI) (r : sref) : Sentence :=
  match r.1 with
  | Some i => default r.2 (knowledge st !! i)
  | None => r.2
  end.

(** *** consolidate_cells, first loop (lines 294-306) *)

(** Body of the first loop for the sentence found at index [idx].  No
    element is deleted before [remove], so the object bound to [sentence]
    is still in slot [idx] after the marks; its fields are read there again
    before [remove] compares it with the elements of the list. *)
Definition resolve_step (idx : nat) (sentence : Sentence) (st : MinesweeperAI)
    : effect :=
  if decide (len (cells sentence) = 0) then list_remove sentence st
  else if decide (count sentence = 0) then
    let sentence_cells := elements (cells sentence) in
    let st := mark_safe_cells sentence_cells st in
    list_remove (deref st (Some idx, sentence)) st
  else if decide (count sentence = len (cells sentence)) then
    let sentence_cells := elements (cells sentence) in
    let st := mark_mine_cells sentence_cells st in
    list_remove (deref st (Some idx, sentence)) st
  else (st, Returned).

(** [for idx, sentence in enumerate(self.knowledge)]: the iterator stops as
    soon as its index reaches the current length.  The list never grows in
    the loop, so [length (knowledge st) - idx] steps are enough
    ([resolve_loop_fuel]). *)
Fixpoint resolve_loop (fuel idx : nat) (st : MinesweeperAI) : effect :=
  match fuel with
  | O => (st, Returned)
  | S fuel' =>
      match knowledge st !! idx with
      | None => (st, Returned)
      | Some sentence =>
          resolve_step idx sentence st >>> resolve_loop fuel' (S idx)
      end
  end.

(** *** consolidate_cells, second loop (lines 308-327) *)

(** The variable [sentence1] holds an object that the body may remove from
    the list while the inner loop goes on; [shift_slot] says where the
    object is after the element at index [k] has been deleted. *)
Definition shift_slot (k : option nat) (slot : option nat) : option nat :=
  match k, slot with
  | Some k, Some i =>
      if decide (k = i) then None
      else if decide (k < i)%nat then Some (pred i) else Some i
  | _, _ => slot
  end.

(** [self.knowledge.remove(sentence1)]. *)
Definition remove_tracked (r : sref) (st : MinesweeperAI) : effect * sref :=
  let x := deref st r in
  (list_remove x st, (shift_slot (index_of x (knowledge st)) r.1, x)).

(** Body of the inner loop once [idx1 is not idx2] holds.  [sentence2] was
    just read from its slot and is used before any mark of the body. *)
Definition subset_step (sentence1 : sref) (sentence2 : Sentence)
    (st : MinesweeperAI) : effect * sref :=
  let s1 := deref st sentence1 in
  if decide (cells s1 ⊆ cells sentence2) then
    if decide (cells s1 = cells sentence2) then
      remove_tracked sentence1 st
    else if decide (count s1 = count sentence2) then
      let sentence_cells := elements (cells sentence2 ∖ cells s1) in
      remove_tracked sentence1 (mark_safe_cells sentence_cells st)
    else if decide (len (cells sentence2 ∖ cells s1) = count sentence2 - count s1
                    ∧ len (cells sentence2 ∖ cells s1) > 0) then
      let sentence_cells := elements (cells sentence2 ∖ cells s1) in
      ((mark_mine_cells sentence_cells st, Returned), sentence1)
    else ((st, Returned), sentence1)
  else ((st, Returned), sentence1).

(** The inner loop of lines 308-327.  Its guard [idx1 is not idx2] is an
    identity test on two int objects: it holds when the indexes differ, and
    also when they are equal and above 256, where CPython makes a new int
    object for each. *)
Fixpoint inner_loop (fuel idx1 : nat) (sentence1 : sref) (idx2 : nat)
    (st : MinesweeperAI) : effect :=
  match fuel with
  | O => (st, Returned)
  | S fuel' =>
      match knowledge st !! idx2 with
      | None => (st, Returned)
      | Some sentence2 =>
          let step :=
            if decide (idx1 ≠ idx2 ∨ (256 < idx1)%nat)
            then subset_step sentence1 sentence2 st
            else ((st, Returned), sentence1) in
          step.1 >>> inner_loop fuel' idx1 step.2 (S idx2)
      end
  end.

Fixpoint outer_loop (fuel idx1 : nat) (st : MinesweeperAI) : effect :=
  match fuel with
  | O => (st, Returned)
  | S fuel' =>
      match knowledge st !! idx1 with
      | None => (st, Returned)
      | Some sentence1 =>
          inner_loop (length (knowledge st)) idx1 (Some idx1, sentence1) 0 st >>>
          outer_loop fuel' (S idx1)
      end
  end.

(** [MinesweeperAI.consolidate_cells].  [popping_indexes] stays empty, so the
    last [if] of the method does nothing. *)
Definition consolidate_cells (st : MinesweeperAI) : effect :=
  resolve_loop (length (knowledge st)) 0 st >>>
  (λ st, outer_loop (length (knowledge st)) 0 st).

(** *** add_knowledge *)

Definition add_move (cell : Cell) (st : MinesweeperAI) : MinesweeperAI :=
  {| height := height st; width := width st;
     moves_made := {[cell]} ∪ moves_made st;
     mines := mines st; safes := safes st; knowledge := knowledge st |}.

(** The sets computed at lines 212-219 from the state reached there. *)
Definition undiscovered_surrounding_cells (st : MinesweeperAI)
    (surrounding : cellset) : cellset :=
  surrounding ∖ (safes st ∩ surrounding) ∖ (mines st ∩ surrounding).

Definition undiscovered_surrounding_mines_count (st : MinesweeperAI)
    (surrounding : cellset) (count : Z) : Z :=
  count - len (mines st ∩ surrounding).

(** Lines 190-229: everything before the call of [consolidate_cells]. *)
Definition add_knowledge_direct (cell : Cell) (count : Z) (st : MinesweeperAI)
    : MinesweeperAI :=
  let st := add_move cell st in
  let st := mark_safe cell st in
  let surrounding := surrounding_cells st cell in
  let st := if decide (len surrounding = count)
            then mark_mine_cells (elements surrounding) st else st in
  let st := if decide (count = 0)
            then mark_safe_cells (elements surrounding) st else st in
  let undiscovered := undiscovered_surrounding_cells st surrounding in
  let mines_count := undiscovered_surrounding_mines_count st surrounding count in
  if decide (len undiscovered > 0 ∧ mines_count > 0) then
    if decide (len undiscovered = mines_count) then
      mark_mine_cells (elements undiscovered) st
    else
      set_knowledge (knowledge st ++ [mkSentence undiscovered mines_count]) st
  else st.

(** [MinesweeperAI.add_knowledge]. *)
Definition add_knowledge (cell : Cell) (count : Z) (st : MinesweeperAI)
    : effect :=
  consolidate_cells (add_knowledge_direct cell count st).

(** *** The second loop with [sentence1] read once

    The marks of the body only concern cells that [sentence1] does not have,
    so the object keeps the fields it had when the outer loop read it.  The
    loops below pass these fields along instead of the reference; they
    compute the same ([consolidate_cells_by_value], [add_knowledge_by_value])
    and carry the proofs. *)
Definition subset_step_val (sentence1 sentence2 : Sentence) (st : MinesweeperAI)
    : effect :=
  if decide (cells sentence1 ⊆ cells sentence2) then
    if decide (cells sentence1 = cells sentence2) then
      list_remove sentence1 st
    else if decide (count sentence1 = count sentence2) then
      let sentence_cells := elements (cells sentence2 ∖ cells sentence1) in
      list_remove sentence1 (mark_safe_cells sentence_cells st)
    else if decide (len (cells sentence2 ∖ cells sentence1)
                      = count sentence2 - count sentence1
                    ∧ len (cells sentence2 ∖ cells sentence1) > 0) then
      let sentence_cells := elements (cells sentence2 ∖ cells sentence1) in
      (mark_mine_cells sentence_cells st, Returned)
    else (st, Returned)
  else (st, Returned).

Fixpoint inner_loop_val (fuel idx1 : nat) (sentence1 : Sentence) (idx2 : nat)
    (st : MinesweeperAI) : effect :=
  match fuel with
  | O => (st, Returned)
  | S fuel' =>
      match knowledge st !! idx2 with
      | None => (st, Returned)
      | Some sentence2 =>
          (if decide (idx1 ≠ idx2 ∨ (256 < idx1)%nat)
           then subset_step_val sentence1 sentence2 st
           else (st, Returned)) >>>
          inner_loop_val fuel' idx1 sentence1 (S idx2)
      end
  end.

Fixpoint outer_loop_val (fuel idx1 : nat) (st : MinesweeperAI) : effect :=
  match fuel with
  | O => (st, Returned)
  | S fuel' =>
      match knowledge st !! idx1 with
      | None => (st, Returned)
      | Some sentence1 =>
          inner_loop_val (length (knowledge st)) idx1 sentence1 0 st >>>
          outer_loop_val fuel' (S idx1)
      end
  end.

Definition consolidate_cells_val (st : MinesweeperAI) : effect :=
  resolve_loop (length (knowledge st)) 0 st >>>
  (λ st, outer_loop_val (length (knowledge st)) 0 st).

Definition add_knowledge_val (cell : Cell) (count : Z) (st : MinesweeperAI)
    : effect :=
  consolidate_cells_val (add_knowledge_direct cell count st).

(** ** Move selectors *)

(** What a selector hands back: a cell, Python's [None], or an exception. *)
Inductive move : Type :=
  | Chosen (cell : Cell)
  | NoMove
  | Failed (e : exn).

(** [l[i]] for a Python list: a negative index counts from the end. *)
Definition py_index {A : Type} (l : list A) (i : Z) : option A :=
  if decide (0 <= i) then l !! Z.to_nat i
  else if decide (- Z.of_nat (length l) <= i)
       then l !! Z.to_nat (Z.of_nat (length l) + i)
       else None.

(** [MinesweeperAI.get_undiscovered_cells]: the two nested [range] loops. *)
Definition get_undiscovered_cells (st : MinesweeperAI) : cellset :=
  foldl (λ acc i,
           foldl (λ acc j,
                    if decide ((i, j) ∉ moves_made st)
                    then {[(i, j)]} ∪ acc else acc)
                 acc (seqZ 0 (width st)))
        ∅ (seqZ 0 (height st)).

(** [set.pop()] on a non-empty set gives one of its elements. *)
Definition pop_contract (pop : cellset → Cell) : Prop :=
  ∀ s : cellset, s ≠ ∅ → pop s ∈ s.

(** [list(s)] of a set lists its elements once each, in some order. *)
Definition listing_contract (listing : cellset → list Cell) : Prop :=
  ∀ s : cellset, listing s ≡ₚ elements s.

(** [random.randint(a, b)] gives an integer between [a] and [b]. *)
Definition randint_contract (randint : Z → Z → Z) : Prop :=
  ∀ a b, a <= b → a <= randint a b <= b.

Section Selectors.

Variable pop : cellset → Cell.
Variable listing : cellset → list Cell.
Variable randint : Z → Z → Z.

(** [MinesweeperAI.make_safe_move]: the set that is popped is the fresh
    result of [difference]; the state is handed back as it was. *)
Definition make_safe_move (st : MinesweeperAI) : MinesweeperAI * move :=
  let safe_unmade_moves := safes st ∖ moves_made st in
  if decide (len safe_unmade_moves ≠ 0)
  then (st, Chosen (pop safe_unmade_moves))
  else (st, NoMove).

(** [MinesweeperAI.make_random_move]. *)
Definition make_random_move (st : MinesweeperAI) : MinesweeperAI * move :=
  let undiscovered_cells := listing (get_undiscovered_cells st) in
  let undiscovered_cells :=
    filter (λ x : Cell, x ∉ mines st) undiscovered_cells in
  if decide (Z.of_nat (length undiscovered_cells) = 0) then (st, NoMove)
  else
    match py_index undiscovered_cells
            (randint 0 (Z.of_nat (length undiscovered_cells) - 1)) with
    | Some randomCell => (st, Chosen randomCell)
    | None => (st, Failed IndexError)
    end.

End Selectors.

(** ** class Minesweeper: the board *)

Record Minesweeper : Type := mkGame {
  g_height : Z;
  g_width : Z;
  board : list (list bool)
}.

(** [self.board[i][j]]; [None] stands for an [IndexError]. *)
Definition board_at (g : Minesweeper) (cell : Cell) : option bool :=
  row ← py_index (board g) cell.1; py_index row cell.2.

(** [Minesweeper.is_mine]. *)
Definition is_mine (g : Minesweeper) (cell : Cell) : option bool :=
  board_at g cell.

(** The cells visited by the two [range] loops of [nearby_mines]. *)
Definition block3 (cell : Cell) : list Cell :=
  i ← seqZ (cell.1 - 1) 3; j ← seqZ (cell.2 - 1) 3; [(i, j)].

(** [Minesweeper.nearby_mines]. *)
Definition nearby_step (g : Minesweeper) (cell : Cell)
    (acc : option Z) (ij : Cell) : option Z :=
  count ← acc;
  if decide (ij = cell) then Some count
  else if decide (0 <= ij.1 < g_height g ∧ 0 <= ij.2 < g_width g) then
    b ← board_at g ij; Some (if b : bool then count + 1 else count)
  else Some count.

Definition nearby_mines (g : Minesweeper) (cell : Cell) : option Z :=
  foldl (nearby_step g cell) (Some 0) (block3 cell).

(** * Predicates of the specification *)

(** ** Truth on a board

    [mined g c]: the cell is on the board and [self.board[i][j]] is [True];
    this is what [nearby_mines] counts.  [mine_count g s] is the number of
    such cells in a set. *)
Definition in_bounds (g : Minesweeper) (c : Cell) : Prop :=
  0 <= c.1 < g_height g ∧ 0 <= c.2 < g_width g.

Definition mined (g : Minesweeper) (c : Cell) : Prop :=
  in_bounds g c ∧ board_at g c = Some true.

#[global] Instance mined_dec g c : Decision (mined g c).
Proof. unfold mined, in_bounds. apply _. Defined.

Definition mine_count (g : Minesweeper) (s : cellset) : Z :=
  len (filter (mined g) s).

(** A sentence is true on the board when its count is the number of mines
    among its cells. *)
Definition true_sentence (g : Minesweeper) (s : Sentence) : Prop :=
  count s = mine_count g (cells s).

(** ** Soundness of the knowledge base on a board

    [sound g st]: the engine was built for the size of [g], every cell of
    [safes] is free of a mine, every cell of [mines] holds one, every stored
    sentence is true, and no stored sentence mentions a cell that is already
    in [safes] or [mines]. *)
Record sound (g : Minesweeper) (st : MinesweeperAI) : Prop := mkSound {
  sound_height : height st = g_height g;
  sound_width : width st = g_width g;
  sound_safes : ∀ c, c ∈ safes st → ¬ mined g c;
  sound_mines : ∀ c, c ∈ mines st → mined g c;
  sound_true : ∀ s, s ∈ knowledge st → true_sentence g s;
  sound_fresh : ∀ s c, s ∈ knowledge st → c ∈ cells s →
                       (c ∉ safes st) ∧ (c ∉ mines st)
}.

(** ** Reachable states

    The driver builds the engine for the size of the board and then feeds it
    clues: each revealed cell is not a mine ([is_mine] answers [False]) and
    its count is what [nearby_mines] answers on that board.  The state left
    by a call that raised is kept as a reachable state too. *)
Inductive reachable (g : Minesweeper) : MinesweeperAI → Prop :=
  | reachable_init : reachable g (init (g_height g) (g_width g))
  | reachable_add st cell n :
      reachable g st →
      is_mine g cell = Some false →
      nearby_mines g cell = Some n →
      reachable g (add_knowledge cell n st).1.

(** ** The frame of consolidate_cells

    [settles st st']: [st'] has the same board size and the same moves as
    [st], at least its safe cells and mines, and no more sentences. *)
Definition settles (st st' : MinesweeperAI) : Prop :=
  height st' = height st ∧ width st' = width st
  ∧ moves_made st' = moves_made st
  ∧ safes st ⊆ safes st' ∧ mines st ⊆ mines st'
  ∧ (length (knowledge st') ≤ length (knowledge st))%nat.

(** ** Growth of the three sets *)

Definition grows (st st' : MinesweeperAI) : Prop :=
  moves_made st ⊆ moves_made st'
  ∧ safes st ⊆ safes st'
  ∧ mines st ⊆ mines st'.

(** ** The rules of consolidation *)

(** Rule A applies to a sentence that is empty, or has count 0, or has as
    many mines as cells. *)
Definition rule_A_enabled (s : Sentence) : Prop :=
  len (cells s) = 0 ∨ count s = 0 ∨ count s = len (cells s).

(** Rule B applies to an ordered pair of sentences when the cells of the
    first are among those of the second, and the two have the same cells, or
    the same count, or the extra cells are as many as the extra mines. *)
Definition rule_B_enabled (s1 s2 : Sentence) : Prop :=
  cells s1 ⊆ cells s2
  ∧ (cells s1 = cells s2 ∨ count s1 = count s2
     ∨ len (cells s2 ∖ cells s1) = count s2 - count s1).

(** The sentences of the list with their indexes. *)
Definition indexed (l : list Sentence) : list (nat * Sentence) := imap pair l.

Definition quiescent (st : MinesweeperAI) : Prop :=
  Forall (λ s, ¬ rule_A_enabled s) (knowledge st)
  ∧ Forall (λ p1, Forall (λ p2, p1.1 ≠ p2.1 → ¬ rule_B_enabled p1.2 p2.2)
                         (indexed (knowledge st)))
           (indexed (knowledge st)).

#[global] Instance quiescent_dec st : Decision (quiescent st).
Proof. unfold quiescent, rule_A_enabled, rule_B_enabled. apply _. Defined.

(** ** The candidates of the selectors *)

(** All the cells of the grid, as the specification names them. *)
Definition grid_cells (st : MinesweeperAI) : cellset :=
  list_to_set (i ← seqZ 0 (height st); j ← seqZ 0 (width st); [(i, j)]).

(** The set [make_random_move] is specified to draw from. *)
Definition random_candidates (st : MinesweeperAI) : cellset :=
  grid_cells st ∖ moves_made st ∖ mines st.

(** One way to pop: the first element in the order of [elements]. *)
Definition pop_first (s : cellset) : Cell := default (0, 0) (head (elements s)).

(** One way to draw: the lower bound. *)
Definition randint_low (a b : Z) : Z := a.

(** ** Boards and states of the scenarios *)

(** A board of one row, with mines in columns 0 and 2. *)
Definition row_board : Minesweeper :=
  mkGame 1 5 [[true; false; true; false; false]].

(** A board of one row, with one mine in column 2. *)
Definition row_board_one : Minesweeper :=
  mkGame 1 5 [[false; false; true; false; false]].

(** Three sentences on a row of four cells: the first is a subset of the
    second with the same count, the third shares the extra cell. *)
Definition chain_kb : MinesweeperAI :=
  set_knowledge
    [ mkSentence {[ (0, 0); (0, 1) ]} 1;
      mkSentence {[ (0, 0); (0, 1); (0, 2) ]} 1;
      mkSentence {[ (0, 2); (0, 3) ]} 1 ]
    (init 1 4).

(** A 3 x 3 board with its single mine at (0,0). *)
Definition corner_board : Minesweeper :=
  mkGame 3 3 [[true; false; false]; [false; false; false]; [false; false; false]].

(** The eight cells of the 3 x 3 grid other than (2,2). *)
Definition other_cells : list Cell :=
  [(0, 0); (0, 1); (0, 2); (1, 0); (1, 1); (1, 2); (2, 0); (2, 1)].

(** ** Sentences after a set of cells was marked *)

(** A sentence after every cell of [X] was marked safe: the cells of [X]
    are gone, the count is kept. *)
Definition without_safes (X : cellset) (s : Sentence) : Sentence :=
  {| cells := cells s ∖ X; count := count s |}.

(** A sentence after every cell of [X] was marked as a mine: the cells of
    [X] are gone, and the count is lowered by the number of cells that were
    taken out. *)
Definition without_mines (X : cellset) (s : Sentence) : Sentence :=
  {| cells := cells s ∖ X; count := count s - len (cells s ∩ X) |}.

(** [prunes st st']: every sentence stored in [st'] is a sentence of [st]
    that lost some cells and some units of its count. *)
Definition prunes (st st' : MinesweeperAI) : Prop :=
  ∀ s, s ∈ knowledge st' →
       ∃ s0, s0 ∈ knowledge st ∧ cells s ⊆ cells s0 ∧ count s <= count s0.

(** [sound] written with the bounded quantifiers of finite sets and lists,
    so that it can be decided on a given board and state. *)
Definition sound_check (g : Minesweeper) (st : MinesweeperAI) : Prop :=
  height st = g_height g ∧ width st = g_width g
  ∧ set_Forall (λ c, ¬ mined g c) (safes st)
  ∧ set_Forall (mined g) (mines st)
  ∧ Forall (λ s, true_sentence g s
                 ∧ set_Forall (λ c, (c ∉ safes st) ∧ (c ∉ mines st)) (cells s))
           (knowledge st).

#[global] Instance sound_check_dec g st : Decision (sound_check g st).
Proof. unfold sound_check, true_sentence. apply _. Defined.

(** A board of one row of four cells, with mines at both ends. *)
Definition ends_board : Minesweeper :=
  mkGame 1 4 [[true; false; false; true]].

(** The shape of the board that [Minesweeper.__init__] builds: [height]
    rows of [width] cells (none when the number is negative). *)
Definition wf_board (g : Minesweeper) : Prop :=
  length (board g) = Z.to_nat (g_height g)
  ∧ Forall (λ row, length row = Z.to_nat (g_width g)) (board g).

#[global] Instance wf_board_dec g : Decision (wf_board g).
Proof. unfold wf_board. apply _. Defined.

(** Four sentences, three of them on the same cells with two different
    counts. *)
Definition clash_kb : MinesweeperAI :=
  set_knowledge
    [ mkSentence {[ (0, 0); (0, 1); (0, 2) ]} 1;
      mkSentence {[ (0, 0); (0, 1); (0, 2) ]} 2;
      mkSentence {[ (0, 3); (0, 4) ]} 1;
      mkSentence {[ (0, 0); (0, 1); (0, 2) ]} 2 ]
    (init 1 5).

(** ** Minesweeper.__init__ and Minesweeper.won

    The object of the class has, beside the board, the set [self.mines] and
    the set [self.mines_found]. *)
Record Game : Type := mkFullGame {
  field : Minesweeper;
  placed : cellset;
  mines_found : cellset
}.

(** [l[i] = x] for a Python list: a negative index counts from the end, an
    index out of range raises [IndexError] ([None]). *)
Definition py_set {A : Type} (l : list A) (i : Z) (x : A) : option (list A) :=
  if decide (0 <= i) then
    if decide (i < Z.of_nat (length l)) then Some (<[Z.to_nat i := x]> l)
    else None
  else if decide (- Z.of_nat (length l) <= i)
       then Some (<[Z.to_nat (Z.of_nat (length l) + i) := x]> l)
       else None.

(** [self.board[i][j] = x]: the row object is read, then updated in place. *)
Definition board_set (g : Minesweeper) (cell : Cell) (x : bool)
    : option Minesweeper :=
  row ← py_index (board g) cell.1;
  row' ← py_set row cell.2 x;
  b' ← py_set (board g) cell.1 row';
  Some (mkGame (g_height g) (g_width g) b').

(** How the constructor ends: with an object, with an exception, or still
    in its [while] loop when the draws that were supplied are used up. *)
Inductive construction : Type :=
  | Built (G : Game)
  | BuildRaised (e : exn)
  | StillDrawing.

(** The [while] loop of lines 24-29.  Each turn takes the pair
    [(randrange(height), randrange(width))] from the list of draws;
    [randrange(n)] raises [ValueError] when [n <= 0]. *)
Fixpoint place_mines (target : Z) (draws : list Cell) (g : Minesweeper)
    (ms : cellset) : construction :=
  match draws with
  | [] =>
      if decide (len ms ≠ target) then
        if decide (g_height g <= 0 ∨ g_width g <= 0) then BuildRaised ValueError
        else StillDrawing
      else Built {| field := g; placed := ms; mines_found := ∅ |}
  | ij :: rest =>
      if decide (len ms ≠ target) then
        if decide (g_height g <= 0 ∨ g_width g <= 0) then BuildRaised ValueError
        else
          match board_at g ij with
          | None => BuildRaised IndexError
          | Some true => place_mines target rest g ms
          | Some false =>
              match board_set g ij true with
              | Some g' => place_mines target rest g' ({[ij]} ∪ ms)
              | None => BuildRaised IndexError
              end
          end
      else Built {| field := g; placed := ms; mines_found := ∅ |}
  end.

(** The two [for] loops of lines 16-21: [height] rows of [width] times
    [False]. *)
Definition empty_board (height width : Z) : list (list bool) :=
  replicate (Z.to_nat height) (replicate (Z.to_nat width) false).

(** [Minesweeper.__init__(height, width, mines)]. *)
Definition Minesweeper_init (height width mines : Z) (draws : list Cell)
    : construction :=
  place_mines mines draws (mkGame height width (empty_board height width)) ∅.

(** [Minesweeper.won]. *)
Definition won (G : Game) : bool := bool_decide (mines_found G = placed G).

(** What [random.randrange] promises for the draws of a board. *)
Definition draws_in_range (height width : Z) (draws : list Cell) : Prop :=
  Forall (λ d : Cell, 0 <= d.1 < height ∧ 0 <= d.2 < width) draws.

#[global] Instance draws_in_range_dec h w draws : Decision (draws_in_range h w draws).
Proof. unfold draws_in_range. apply _. Defined.

(** A knowledge base of 258 sentences that no rule relates: the sentence of
    index [k] says that one of the cells [(0, 2k)] and [(0, 2k+1)] is a
    mine. *)
Definition long_kb : MinesweeperAI :=
  set_knowledge
    ((λ k, mkSentence {[ (0, 2 * k); (0, 2 * k + 1) ]} 1) <$> seqZ 0 258)
    (init 1 516).

(** * Properties *)

(** ** Field-wise description of the marking loops *)

Lemma mark_safe_cells_cons c cs st :
  mark_safe_cells (c :: cs) st = mark_safe_cells cs (mark_safe c st).
Proof. reflexivity. Qed.

Lemma mark_mine_cells_cons c cs st :
  mark_mine_cells (c :: cs) st = mark_mine_cells cs (mark_mine c st).
Proof. reflexivity. Qed.

Lemma mark_safe_cells_fields cs st :
  height (mark_safe_cells cs st) = height st
  ∧ width (mark_safe_cells cs st) = width st
  ∧ moves_made (mark_safe_cells cs st) = moves_made st
  ∧ mines (mark_safe_cells cs st) = mines st
  ∧ safes (mark_safe_cells cs st) = list_to_set cs ∪ safes st
  ∧ length (knowledge (mark_safe_cells cs st)) = length (knowledge st).
Proof.
  revert st. induction cs as [|c cs IH]; intros st.
  - cbn. repeat split; try reflexivity. set_solver.
  - rewrite mark_safe_cells_cons.
    destruct (IH (mark_safe c st)) as (-> & -> & -> & -> & -> & ->).
    cbn. rewrite length_fmap. repeat split; try reflexivity. set_solver.
Qed.

Lemma mark_mine_cells_fields cs st :
  height (mark_mine_cells cs st) = height st
  ∧ width (mark_mine_cells cs st) = width st
  ∧ moves_made (mark_mine_cells cs st) = moves_made st
  ∧ mines (mark_mine_cells cs st) = list_to_set cs ∪ mines st
  ∧ safes (mark_mine_cells cs st) = safes st
  ∧ length (knowledge (mark_mine_cells cs st)) = length (knowledge st).
Proof.
  revert st. induction cs as [|c cs IH]; intros st.
  - cbn. repeat split; try reflexivity. set_solver.
  - rewrite mark_mine_cells_cons.
    destruct (IH (mark_mine c st)) as (-> & -> & -> & -> & -> & ->).
    cbn. rewrite length_fmap. repeat split; try reflexivity. set_solver.
Qed.

(** ** list.remove *)

Lemma index_of_Some x l k :
  index_of x l = Some k → l !! k = Some x.
Proof.
  revert k. induction l as [|y l IH]; intros k; cbn; [discriminate|].
  destruct (decide (y = x)) as [->|Hne].
  - intros [= <-]. reflexivity.
  - destruct (index_of x l) as [j|]; cbn; [|discriminate].
    intros [= <-]. cbn. apply IH. reflexivity.
Qed.

Lemma index_of_None x l : index_of x l = None ↔ x ∉ l.
Proof.
  induction l as [|y l IH]; cbn.
  - split; [intros _; apply not_elem_of_nil | reflexivity].
  - destruct (decide (y = x)) as [->|Hne].
    + split; [discriminate|]. intros []. left.
    + rewrite not_elem_of_cons. destruct (index_of x l); cbn.
      * split; [discriminate|]. intros [_ H].
        apply IH in H. discriminate.
      * split; [|reflexivity]. intros _. split; [congruence|].
        apply IH. reflexivity.
Qed.

(** An element that is in the list can always be removed. *)
Lemma list_remove_elem_of x st :
  x ∈ knowledge st → (list_remove x st).2 = Returned.
Proof.
  intros Hin. unfold list_remove.
  destruct (index_of x (knowledge st)) eqn:E; [reflexivity|].
  apply index_of_None in E. contradiction.
Qed.

Lemma list_remove_cases x st :
  (∃ k, knowledge st !! k = Some x
        ∧ list_remove x st = (set_knowledge (delete k (knowledge st)) st, Returned))
  ∨ ((x ∉ knowledge st) ∧ list_remove x st = (st, Raised ValueError)).
Proof.
  unfold list_remove. destruct (index_of x (knowledge st)) as [k|] eqn:E.
  - left. exists k. split; [by apply index_of_Some|reflexivity].
  - right. split; [by apply index_of_None|reflexivity].
Qed.

(** ** Invariants of the loops of consolidate_cells

    A property [P] of the state that every step of the two loops preserves
    holds when [consolidate_cells] ends, with or without an exception.  [Q]
    is what is known of the sentence bound to [sentence1]. *)
Section LoopInvariant.

Variable P : MinesweeperAI → Prop.
Variable Q : Sentence → Prop.

Hypothesis resolve_step_P : ∀ idx s st,
  P st → knowledge st !! idx = Some s → P (resolve_step idx s st).1.
Hypothesis lookup_Q : ∀ idx s st,
  P st → knowledge st !! idx = Some s → Q s.
Hypothesis subset_step_P : ∀ idx s1 s2 st,
  P st → Q s1 → knowledge st !! idx = Some s2 → P (subset_step_val s1 s2 st).1.

Lemma and_then_P (r : effect) (k : MinesweeperAI → effect) :
  P r.1 → (∀ st, P st → P (k st).1) → P (r >>> k).1.
Proof.
  intros Hr Hk. unfold and_then. destruct r as [st []]; cbn in *; auto.
Qed.

Lemma resolve_loop_P fuel : ∀ idx st, P st → P (resolve_loop fuel idx st).1.
Proof.
  induction fuel as [|fuel IH]; intros idx st HP; cbn; [assumption|].
  destruct (knowledge st !! idx) as [s|] eqn:E; [|assumption].
  apply and_then_P; eauto.
Qed.

Lemma inner_loop_P fuel idx1 s1 :
  Q s1 → ∀ idx2 st, P st → P (inner_loop_val fuel idx1 s1 idx2 st).1.
Proof.
  intros HQ. induction fuel as [|fuel IH]; intros idx2 st HP; cbn; [assumption|].
  destruct (knowledge st !! idx2) as [s2|] eqn:E; [|assumption].
  apply and_then_P; [|auto].
  destruct (decide (idx1 ≠ idx2 ∨ (256 < idx1)%nat)); [eauto|assumption].
Qed.

Lemma outer_loop_P fuel : ∀ idx1 st, P st → P (outer_loop_val fuel idx1 st).1.
Proof.
  induction fuel as [|fuel IH]; intros idx1 st HP; cbn; [assumption|].
  destruct (knowledge st !! idx1) as [s1|] eqn:E; [|assumption].
  apply and_then_P; [|auto].
  apply inner_loop_P; eauto.
Qed.

Lemma consolidate_cells_P st : P st → P (consolidate_cells_val st).1.
Proof.
  intros HP. unfold consolidate_cells_val. apply and_then_P.
  - by apply resolve_loop_P.
  - intros st' HP'. by apply outer_loop_P.
Qed.

End LoopInvariant.

(** ** What consolidate_cells never touches *)

Lemma settles_refl st : settles st st.
Proof. unfold settles. repeat split; try reflexivity. Qed.

Lemma settles_trans st1 st2 st3 :
  settles st1 st2 → settles st2 st3 → settles st1 st3.
Proof.
  unfold settles. intros (Hh&Hw&Hm&Hs&Hn&Hl) (Hh'&Hw'&Hm'&Hs'&Hn'&Hl').
  split; [congruence|]. split; [congruence|]. split; [congruence|].
  split; [by etrans|]. split; [by etrans|]. lia.
Qed.

Lemma mark_safe_cells_settles cs st : settles st (mark_safe_cells cs st).
Proof.
  destruct (mark_safe_cells_fields cs st) as (?&?&?&?&Hs&Hl).
  unfold settles. rewrite Hs, Hl.
  split; [assumption|]. split; [assumption|]. split; [assumption|].
  split; [apply union_subseteq_r|]. split; [by apply reflexive_eq|]. lia.
Qed.

Lemma mark_mine_cells_settles cs st : settles st (mark_mine_cells cs st).
Proof.
  destruct (mark_mine_cells_fields cs st) as (?&?&?&Hm&?&Hl).
  unfold settles. rewrite Hm, Hl.
  split; [assumption|]. split; [assumption|]. split; [assumption|].
  split; [by apply reflexive_eq|]. split; [apply union_subseteq_r|]. lia.
Qed.

Lemma list_remove_settles x st : settles st (list_remove x st).1.
Proof.
  destruct (list_remove_cases x st) as [(k & Hk & ->)|[_ ->]]; cbn;
    [|apply settles_refl].
  unfold settles; cbn. repeat split; try reflexivity.
  rewrite length_delete; [lia|]. by eexists.
Qed.

Lemma resolve_step_settles idx s st : settles st (resolve_step idx s st).1.
Proof.
  unfold resolve_step. repeat case_decide.
  - apply list_remove_settles.
  - eapply settles_trans; [apply mark_safe_cells_settles|apply list_remove_settles].
  - eapply settles_trans; [apply mark_mine_cells_settles|apply list_remove_settles].
  - apply settles_refl.
Qed.

Lemma subset_step_settles s1 s2 st : settles st (subset_step_val s1 s2 st).1.
Proof.
  unfold subset_step_val. repeat case_decide; cbn [fst].
  - apply list_remove_settles.
  - eapply settles_trans; [apply mark_safe_cells_settles|apply list_remove_settles].
  - apply mark_mine_cells_settles.
  - apply settles_refl.
  - apply settles_refl.
Qed.

Lemma resolve_loop_settles fuel idx st : settles st (resolve_loop fuel idx st).1.
Proof.
  apply (resolve_loop_P (settles st)); [|apply settles_refl].
  intros i s st' H _. eapply settles_trans; [exact H|apply resolve_step_settles].
Qed.

Lemma inner_loop_settles fuel idx1 s1 idx2 st :
  settles st (inner_loop_val fuel idx1 s1 idx2 st).1.
Proof.
  apply (inner_loop_P (settles st) (λ _, True)); [|exact I|apply settles_refl].
  intros _ s s2 st' H _ _.
  eapply settles_trans; [exact H|apply subset_step_settles].
Qed.

Lemma outer_loop_settles fuel idx1 st : settles st (outer_loop_val fuel idx1 st).1.
Proof.
  apply (outer_loop_P (settles st) (λ _, True)); [done| |apply settles_refl].
  intros _ s s2 st' H _ _.
  eapply settles_trans; [exact H|apply subset_step_settles].
Qed.

Lemma consolidate_cells_settles st : settles st (consolidate_cells_val st).1.
Proof.
  apply (consolidate_cells_P (settles st) (λ _, True)); [|done| |apply settles_refl].
  - intros i s st' H _. eapply settles_trans; [exact H|apply resolve_step_settles].
  - intros _ s s2 st' H _ _.
    eapply settles_trans; [exact H|apply subset_step_settles].
Qed.

(** ** The loops have fuel enough

    Each loop is started with the length of the list as fuel.  More fuel does
    not change its result: the index goes up by one at every step and the
    list does not grow, so the iterator is exhausted first. *)
Lemma resolve_loop_fuel fuel extra : ∀ idx st,
  (length (knowledge st) ≤ idx + fuel)%nat →
  resolve_loop (fuel + extra) idx st = resolve_loop fuel idx st.
Proof.
  induction fuel as [|fuel IH]; intros idx st Hlen.
  - cbn. destruct extra; cbn; [reflexivity|].
    rewrite lookup_ge_None_2; [reflexivity|lia].
  - cbn. destruct (knowledge st !! idx) as [s|] eqn:E; [|reflexivity].
    pose proof (resolve_step_settles idx s st) as (_&_&_&_&_&Hl).
    unfold and_then. destruct (resolve_step idx s st) as [st' []]; cbn in *;
      [|reflexivity].
    apply IH. lia.
Qed.

Lemma inner_loop_fuel fuel extra idx1 s1 : ∀ idx2 st,
  (length (knowledge st) ≤ idx2 + fuel)%nat →
  inner_loop_val (fuel + extra) idx1 s1 idx2 st = inner_loop_val fuel idx1 s1 idx2 st.
Proof.
  induction fuel as [|fuel IH]; intros idx2 st Hlen.
  - cbn. destruct extra; cbn; [reflexivity|].
    rewrite lookup_ge_None_2; [reflexivity|lia].
  - cbn. destruct (knowledge st !! idx2) as [s2|] eqn:E; [|reflexivity].
    unfold and_then. destruct (decide (idx1 ≠ idx2 ∨ (256 < idx1)%nat)); cbn.
    + pose proof (subset_step_settles s1 s2 st) as (_&_&_&_&_&Hl).
      destruct (subset_step_val s1 s2 st) as [st' []]; cbn in *; [|reflexivity].
      apply IH. lia.
    + apply IH. lia.
Qed.

Lemma outer_loop_fuel fuel extra : ∀ idx1 st,
  (length (knowledge st) ≤ idx1 + fuel)%nat →
  outer_loop_val (fuel + extra) idx1 st = outer_loop_val fuel idx1 st.
Proof.
  induction fuel as [|fuel IH]; intros idx1 st Hlen.
  - cbn. destruct extra; cbn; [reflexivity|].
    rewrite lookup_ge_None_2; [reflexivity|lia].
  - cbn. destruct (knowledge st !! idx1) as [s1|] eqn:E; [|reflexivity].
    pose proof (inner_loop_settles (length (knowledge st)) idx1 s1 0 st)
      as (_&_&_&_&_&Hl).
    unfold and_then.
    destruct (inner_loop_val (length (knowledge st)) idx1 s1 0 st) as [st' []];
      cbn in *; [|reflexivity].
    apply IH. lia.
Qed.

(** Both loops with any larger fuel give the same. *)
Lemma consolidate_cells_fuel st extra1 extra2 :
  resolve_loop (length (knowledge st) + extra1) 0 st >>>
    (λ st', outer_loop_val (length (knowledge st') + extra2) 0 st')
  = consolidate_cells_val st.
Proof.
  unfold consolidate_cells_val. rewrite resolve_loop_fuel by lia.
  unfold and_then. destruct (resolve_loop _ 0 st) as [st' []]; cbn;
    [|reflexivity].
  apply outer_loop_fuel. lia.
Qed.

(** ** Counting the mines of a set *)

Section Counting.

Variable g : Minesweeper.
Implicit Types (s t : gset Cell) (c : Cell).

Lemma mined_subseteq s : filter (mined g) s ⊆ s.
Proof. intros c Hc. by apply elem_of_filter in Hc as [_ ?]. Qed.

Lemma mine_count_bounds s : 0 <= mine_count g s <= len s.
Proof.
  unfold mine_count, len.
  pose proof (subseteq_size _ _ (mined_subseteq s)). lia.
Qed.

Lemma mine_count_union s t :
  s ## t → mine_count g (s ∪ t) = mine_count g s + mine_count g t.
Proof.
  intros Hd. unfold mine_count, len.
  rewrite filter_union.
  rewrite size_union; [lia|]. by apply disjoint_filter.
Qed.

Lemma mine_count_none s :
  mine_count g s = 0 ↔ ∀ c, c ∈ s → ¬ mined g c.
Proof.
  unfold mine_count, len. split.
  - intros H c Hc Hm.
    assert (size (filter (mined g) s) = 0%nat) as H0 by lia.
    apply size_empty_iff in H0.
    assert (c ∈ filter (mined g) s) as Hin by (apply elem_of_filter; done).
    rewrite H0 in Hin. by apply not_elem_of_empty in Hin.
  - intros H.
    assert (filter (mined g) s ≡ ∅) as ->.
    { apply elem_of_equiv_empty. intros c [Hm Hc]%elem_of_filter.
      by apply (H c). }
    by rewrite size_empty.
Qed.

Lemma mine_count_all s :
  mine_count g s = len s ↔ ∀ c, c ∈ s → mined g c.
Proof.
  unfold mine_count, len. split.
  - intros H c Hc.
    assert (filter (mined g) s = s) as Heq.
    { apply set_subseteq_size_eq; [apply mined_subseteq|lia]. }
    rewrite <- Heq in Hc. by apply elem_of_filter in Hc as [? _].
  - intros H.
    assert (filter (mined g) s = s) as ->; [|reflexivity].
    apply set_eq. intros c. rewrite elem_of_filter. naive_solver.
Qed.

Lemma mine_count_split s t :
  mine_count g s = mine_count g (s ∩ t) + mine_count g (s ∖ t).
Proof.
  rewrite <- mine_count_union.
  - f_equal. apply set_eq. intros c.
    rewrite elem_of_union, elem_of_intersection, elem_of_difference.
    destruct (decide (c ∈ t)); naive_solver.
  - apply elem_of_disjoint. intros c.
    rewrite elem_of_intersection, elem_of_difference. naive_solver.
Qed.

Lemma len_split s t : len s = len (s ∩ t) + len (s ∖ t).
Proof.
  unfold len. rewrite <- Nat2Z.inj_add, <- size_union.
  - do 2 f_equal. apply set_eq. intros c.
    rewrite elem_of_union, elem_of_intersection, elem_of_difference.
    destruct (decide (c ∈ t)); naive_solver.
  - apply elem_of_disjoint. intros c.
    rewrite elem_of_intersection, elem_of_difference. naive_solver.
Qed.

Lemma mine_count_drop_safe s c :
  ¬ mined g c → mine_count g (s ∖ {[c]}) = mine_count g s.
Proof.
  intros Hc. rewrite (mine_count_split s {[c]}).
  assert (mine_count g (s ∩ {[c]}) = 0) as ->; [|lia].
  apply mine_count_none. intros c' Hc'.
  apply elem_of_intersection in Hc' as [_ ->%elem_of_singleton]. done.
Qed.

Lemma mine_count_drop_mine s c :
  mined g c → c ∈ s → mine_count g (s ∖ {[c]}) = mine_count g s - 1.
Proof.
  intros Hc Hin. rewrite (mine_count_split s {[c]}).
  assert (s ∩ {[c]} = {[c]}) as ->.
  { apply set_eq. intros c'.
    rewrite elem_of_intersection, elem_of_singleton. naive_solver. }
  assert (mine_count g {[c]} = 1) as ->; [|lia].
  apply Z.le_antisymm.
  - pose proof (mine_count_bounds {[c]}) as Hb. unfold len in Hb.
    rewrite size_singleton in Hb. lia.
  - unfold mine_count, len.
    assert (c ∈ filter (mined g) ({[c]} : gset Cell)) as Hc'.
    { apply elem_of_filter. split; [done|by apply elem_of_singleton]. }
    assert (size (filter (mined g) ({[c]} : gset Cell)) ≠ 0%nat); [|lia].
    intros H0%size_empty_iff. rewrite H0 in Hc'.
    by apply not_elem_of_empty in Hc'.
Qed.

Lemma mark_safe_true c (s : Sentence) :
  ¬ mined g c → true_sentence g s → true_sentence g (Sentence_.mark_safe c s).
Proof.
  unfold true_sentence, Sentence_.mark_safe. intros Hc Hs.
  case_decide; cbn; [assumption|]. by rewrite mine_count_drop_safe.
Qed.

Lemma mark_mine_true c (s : Sentence) :
  mined g c → true_sentence g s → true_sentence g (Sentence_.mark_mine c s).
Proof.
  unfold true_sentence, Sentence_.mark_mine. intros Hc Hs.
  case_decide as Hin; cbn; [assumption|].
  rewrite mine_count_drop_mine; [lia|done|].
  by destruct (decide (c ∈ cells s)).
Qed.

End Counting.

(** ** Every step keeps the knowledge base sound *)

Lemma elem_of_cells_mark_safe c c' s :
  c' ∈ cells (Sentence_.mark_safe c s) ↔ c' ∈ cells s ∧ c' ≠ c.
Proof.
  unfold Sentence_.mark_safe. case_decide as Hc; cbn.
  - split; [|tauto]. intros H. split; [done|]. by intros ->.
  - rewrite elem_of_difference, elem_of_singleton. tauto.
Qed.

Lemma elem_of_cells_mark_mine c c' s :
  c' ∈ cells (Sentence_.mark_mine c s) ↔ c' ∈ cells s ∧ c' ≠ c.
Proof.
  unfold Sentence_.mark_mine. case_decide as Hc; cbn.
  - split; [|tauto]. intros H. split; [done|]. by intros ->.
  - rewrite elem_of_difference, elem_of_singleton. tauto.
Qed.

Section Soundness.

Variable g : Minesweeper.

Lemma mark_safe_sound c st :
  ¬ mined g c → sound g st → sound g (mark_safe c st).
Proof.
  intros Hc [Hh Hw Hs Hm Ht Hf]. split; cbn; try assumption.
  - intros c' [->%elem_of_singleton|H]%elem_of_union; auto.
  - intros s' (s & -> & Hin)%list_elem_of_fmap.
    apply mark_safe_true; auto.
  - intros s' c' (s & -> & Hin)%list_elem_of_fmap
      [Hc' Hne]%elem_of_cells_mark_safe.
    destruct (Hf s c' Hin Hc') as [H1 H2]. split; [|assumption].
    rewrite elem_of_union, elem_of_singleton. tauto.
Qed.

Lemma mark_mine_sound c st :
  mined g c → sound g st → sound g (mark_mine c st).
Proof.
  intros Hc [Hh Hw Hs Hm Ht Hf]. split; cbn; try assumption.
  - intros c' [->%elem_of_singleton|H]%elem_of_union; auto.
  - intros s' (s & -> & Hin)%list_elem_of_fmap.
    apply mark_mine_true; auto.
  - intros s' c' (s & -> & Hin)%list_elem_of_fmap
      [Hc' Hne]%elem_of_cells_mark_mine.
    destruct (Hf s c' Hin Hc') as [H1 H2]. split; [assumption|].
    rewrite elem_of_union, elem_of_singleton. tauto.
Qed.

Lemma mark_safe_cells_sound cs : ∀ st,
  (∀ c, c ∈ cs → ¬ mined g c) → sound g st → sound g (mark_safe_cells cs st).
Proof.
  induction cs as [|c cs IH]; intros st Hcs Hst; [assumption|].
  rewrite mark_safe_cells_cons. apply IH.
  - intros c' Hc'. apply Hcs. by right.
  - apply mark_safe_sound; [|assumption]. apply Hcs. by left.
Qed.

Lemma mark_mine_cells_sound cs : ∀ st,
  (∀ c, c ∈ cs → mined g c) → sound g st → sound g (mark_mine_cells cs st).
Proof.
  induction cs as [|c cs IH]; intros st Hcs Hst; [assumption|].
  rewrite mark_mine_cells_cons. apply IH.
  - intros c' Hc'. apply Hcs. by right.
  - apply mark_mine_sound; [|assumption]. apply Hcs. by left.
Qed.

Lemma list_remove_sound x st : sound g st → sound g (list_remove x st).1.
Proof.
  intros Hst.
  destruct (list_remove_cases x st) as [(k & Hk & ->)|[_ ->]]; [|assumption].
  destruct Hst as [Hh Hw Hs Hm Ht Hf]. split; cbn; try assumption.
  - intros s Hin%list_elem_of_delete_inv. exact (Ht s Hin).
  - intros s c Hin%list_elem_of_delete_inv Hc. exact (Hf s c Hin Hc).
Qed.

Lemma resolve_step_sound idx s st :
  sound g st → knowledge st !! idx = Some s →
  sound g (resolve_step idx s st).1.
Proof.
  intros Hst Hs. pose proof (sound_true _ _ Hst s (list_elem_of_lookup_2 _ _ _ Hs)) as Ht.
  red in Ht. unfold resolve_step. repeat case_decide.
  - by apply list_remove_sound.
  - apply list_remove_sound, mark_safe_cells_sound; [|assumption].
    intros c Hc%elem_of_elements.
    eapply mine_count_none; [|exact Hc]. congruence.
  - apply list_remove_sound, mark_mine_cells_sound; [|assumption].
    intros c Hc%elem_of_elements.
    eapply mine_count_all; [|exact Hc]. congruence.
  - assumption.
Qed.

(** The cells of the larger sentence that the smaller one does not have
    carry the difference of the two counts. *)
Lemma subset_difference_count s1 s2 :
  true_sentence g s1 → true_sentence g s2 → cells s1 ⊆ cells s2 →
  mine_count g (cells s2 ∖ cells s1) = count s2 - count s1.
Proof.
  unfold true_sentence. intros -> -> Hsub.
  rewrite (mine_count_split g (cells s2) (cells s1)).
  assert (cells s2 ∩ cells s1 = cells s1) as ->; [|lia].
  apply set_eq. intros c. rewrite elem_of_intersection.
  specialize (Hsub c). tauto.
Qed.

Lemma subset_step_sound idx s1 s2 st :
  sound g st → true_sentence g s1 → knowledge st !! idx = Some s2 →
  sound g (subset_step_val s1 s2 st).1.
Proof.
  intros Hst H1 Hs2.
  pose proof (sound_true _ _ Hst s2 (list_elem_of_lookup_2 _ _ _ Hs2)) as H2.
  unfold subset_step_val.
  destruct (decide (cells s1 ⊆ cells s2)) as [Hsub|]; [|assumption].
  pose proof (subset_difference_count s1 s2 H1 H2 Hsub) as Hd.
  repeat case_decide; cbn [fst].
  - by apply list_remove_sound.
  - apply list_remove_sound, mark_safe_cells_sound; [|assumption].
    intros c Hc%elem_of_elements.
    eapply mine_count_none; [|exact Hc]. lia.
  - apply mark_mine_cells_sound; [|assumption].
    intros c Hc%elem_of_elements.
    eapply mine_count_all; [|exact Hc]. lia.
  - assumption.
Qed.

Lemma consolidate_cells_sound st :
  sound g st → sound g (consolidate_cells_val st).1.
Proof.
  apply (consolidate_cells_P (sound g) (true_sentence g)).
  - intros idx s st'. apply resolve_step_sound.
  - intros idx s st' Hst Hs.
    eapply sound_true; [exact Hst|]. by eapply list_elem_of_lookup_2.
  - intros idx s1 s2 st'. apply subset_step_sound.
Qed.

End Soundness.

(** ** The clue of the board is the count of the engine's neighbourhood *)

Lemma elem_of_block3 (c cell : Cell) :
  c ∈ block3 cell ↔
  cell.1 - 1 <= c.1 <= cell.1 + 1 ∧ cell.2 - 1 <= c.2 <= cell.2 + 1.
Proof.
  unfold block3. rewrite list_elem_of_bind. split.
  - intros (i & (j & Hc%list_elem_of_singleton & Hj%elem_of_seqZ)%list_elem_of_bind
            & Hi%elem_of_seqZ).
    subst c. cbn. lia.
  - intros [Hi Hj]. exists c.1. split; [|apply elem_of_seqZ; lia].
    apply list_elem_of_bind. exists c.2. split; [|apply elem_of_seqZ; lia].
    apply list_elem_of_singleton. by destruct c.
Qed.

Lemma NoDup_block3 cell : NoDup (block3 cell).
Proof.
  unfold block3. apply NoDup_bind; [| |apply NoDup_seqZ].
  - intros i1 i2 c _ _
      (j1 & ->%list_elem_of_singleton & _)%list_elem_of_bind
      (j2 & [= -> _]%list_elem_of_singleton & _)%list_elem_of_bind.
    reflexivity.
  - intros i _. apply NoDup_bind; [| |apply NoDup_seqZ].
    + intros j1 j2 c _ _ ->%list_elem_of_singleton [= ->]%list_elem_of_singleton.
      reflexivity.
    + intros j _. apply NoDup_singleton.
Qed.

Lemma elem_of_neighbours8 (c cell : Cell) :
  c ∈ neighbours8 cell ↔ c ∈ block3 cell ∧ c ≠ cell.
Proof.
  rewrite elem_of_block3. destruct c as [i j], cell as [row col]. cbn.
  rewrite !elem_of_cons, elem_of_nil. split.
  - intros H. decompose [or] H; try contradiction;
      match goal with E : (_, _) = (_, _) |- _ => injection E as -> -> end;
      (split; [lia|]); intros E'; inversion E'; lia.
  - intros [[Hi Hj] Hne].
    assert (i = row - 1 ∨ i = row ∨ i = row + 1) as Hi' by lia.
    assert (j = col - 1 ∨ j = col ∨ j = col + 1) as Hj' by lia.
    destruct Hi' as [-> | [-> | ->]]; destruct Hj' as [-> | [-> | ->]];
      try (by destruct Hne); repeat (first [left; reflexivity | right]).
Qed.

Lemma elem_of_surrounding_cells st cell c :
  c ∈ surrounding_cells st cell ↔
  c ∈ neighbours8 cell ∧ 0 <= c.1 < height st ∧ 0 <= c.2 < width st.
Proof.
  unfold surrounding_cells. rewrite !elem_of_filter, elem_of_list_to_set.
  intuition lia.
Qed.

Lemma surrounding_cells_size st st' cell :
  height st' = height st → width st' = width st →
  surrounding_cells st' cell = surrounding_cells st cell.
Proof.
  intros Hh Hw. apply set_eq. intros c.
  rewrite !elem_of_surrounding_cells, Hh, Hw. reflexivity.
Qed.

Section Clue.

Variable g : Minesweeper.

Lemma nearby_fold_None cell l : foldl (nearby_step g cell) None l = None.
Proof. induction l as [|ij l IH]; [reflexivity|exact IH]. Qed.

(** The loop of [nearby_mines] adds one for every visited cell, other than
    [cell], that is on the board and holds a mine. *)
Lemma nearby_fold_count cell l : ∀ a n,
  foldl (nearby_step g cell) (Some a) l = Some n →
  n = a + Z.of_nat (length (filter (λ ij, ij ≠ cell ∧ mined g ij) l)).
Proof.
  induction l as [|ij l IH]; intros a n; cbn [foldl].
  - intros [= ->]. cbn. lia.
  - unfold nearby_step at 2. cbn [mbind option_bind].
    destruct (decide (ij = cell)) as [->|Hne].
    { intros H%IH. rewrite filter_cons_False; [assumption|]. tauto. }
    destruct (decide (0 <= ij.1 < g_height g ∧ 0 <= ij.2 < g_width g))
      as [Hin|Hout].
    + destruct (board_at g ij) as [[]|] eqn:Hb; cbn [mbind option_bind].
      * intros H%IH. rewrite filter_cons_True; [cbn [length]; lia|].
        split; [assumption|]. by split.
      * intros H%IH. rewrite filter_cons_False; [assumption|].
        intros [_ [_ Hm]]. congruence.
      * rewrite nearby_fold_None. discriminate.
    + intros H%IH. rewrite filter_cons_False; [assumption|].
      intros [_ [Hm _]]. contradiction.
Qed.

Lemma nearby_mines_count st cell n :
  height st = g_height g → width st = g_width g →
  nearby_mines g cell = Some n →
  n = mine_count g (surrounding_cells st cell).
Proof.
  intros Hh Hw Hn. apply nearby_fold_count in Hn. rewrite Hn, Z.add_0_l.
  unfold mine_count, len. f_equal.
  rewrite <- (size_list_to_set (C:=gset Cell))
    by apply NoDup_filter, NoDup_block3.
  f_equal. apply set_eq. intros c.
  rewrite elem_of_list_to_set, list_elem_of_filter, elem_of_filter,
    elem_of_surrounding_cells, elem_of_neighbours8, Hh, Hw.
  unfold mined, in_bounds. tauto.
Qed.

End Clue.

(** ** add_knowledge keeps the knowledge base sound *)

Section Ingestion.

Variable g : Minesweeper.

Lemma is_mine_false cell : is_mine g cell = Some false → ¬ mined g cell.
Proof. unfold is_mine. intros H [_ Hm]. congruence. Qed.

Lemma add_move_sound cell st : sound g st → sound g (add_move cell st).
Proof. intros [Hh Hw Hs Hm Ht Hf]. by split. Qed.

(** The partition of lines 212-219: the mines of the neighbourhood that
    are not yet known are all among the undiscovered cells. *)
Lemma undiscovered_count (st : MinesweeperAI) (surrounding : gset Cell) (n : Z) :
  sound g st → n = mine_count g surrounding →
  mine_count g (undiscovered_surrounding_cells st surrounding)
  = undiscovered_surrounding_mines_count st surrounding n.
Proof.
  intros Hst ->.
  unfold undiscovered_surrounding_cells, undiscovered_surrounding_mines_count.
  rewrite (mine_count_split g surrounding (mines st)).
  assert (mine_count g (surrounding ∩ mines st) = len (mines st ∩ surrounding))
    as ->.
  { rewrite (comm_L (∩) (mines st)). apply mine_count_all.
    intros c [_ Hc]%elem_of_intersection. by eapply sound_mines. }
  rewrite (mine_count_split g (surrounding ∖ mines st) (safes st)).
  assert (mine_count g ((surrounding ∖ mines st) ∩ safes st) = 0) as ->.
  { apply mine_count_none.
    intros c [_ Hc]%elem_of_intersection. by eapply sound_safes. }
  assert (surrounding ∖ (safes st ∩ surrounding) ∖ (mines st ∩ surrounding)
          = (surrounding ∖ mines st) ∖ safes st) as ->; [|lia].
  apply set_eq. intros c.
  rewrite !elem_of_difference, !elem_of_intersection. tauto.
Qed.

Lemma add_knowledge_direct_sound cell n st :
  sound g st → ¬ mined g cell →
  n = mine_count g (surrounding_cells st cell) →
  sound g (add_knowledge_direct cell n st).
Proof.
  intros Hst Hcell Hn. unfold add_knowledge_direct.
  assert (sound g (mark_safe cell (add_move cell st))) as H1
    by by apply mark_safe_sound, add_move_sound.
  rewrite (surrounding_cells_size st (mark_safe cell (add_move cell st)))
    by reflexivity.
  revert H1. generalize (mark_safe cell (add_move cell st)). intros st1 H1.
  set (surrounding := surrounding_cells st cell) in *.
  assert (sound g (if decide (len surrounding = n)
                   then mark_mine_cells (elements surrounding) st1
                   else st1)) as H2.
  { case_decide as E; [|assumption].
    apply mark_mine_cells_sound; [|assumption].
    intros c Hc%elem_of_elements.
    eapply mine_count_all; [|exact Hc]. congruence. }
  revert H2. generalize (if decide (len surrounding = n)
                         then mark_mine_cells (elements surrounding) st1
                         else st1). clear st1 H1. intros st2 H2.
  assert (sound g (if decide (n = 0)
                   then mark_safe_cells (elements surrounding) st2
                   else st2)) as H3.
  { case_decide as E; [|assumption].
    apply mark_safe_cells_sound; [|assumption].
    intros c Hc%elem_of_elements.
    eapply mine_count_none; [|exact Hc]. congruence. }
  revert H3. generalize (if decide (n = 0)
                         then mark_safe_cells (elements surrounding) st2
                         else st2). clear st2 H2. intros st3 H3.
  pose proof (undiscovered_count st3 surrounding n H3 Hn) as Hu.
  case_decide as Hpos; [|assumption].
  case_decide as Hall.
  - apply mark_mine_cells_sound; [|assumption].
    intros c Hc%elem_of_elements.
    eapply mine_count_all; [|exact Hc]. congruence.
  - destruct H3 as [Hh Hw Hs Hm Ht Hf]. split; cbn; try assumption.
    + intros s [Hin | ->%list_elem_of_singleton]%elem_of_app; [by apply Ht|].
      red. cbn. by rewrite Hu.
    + intros s c [Hin | ->%list_elem_of_singleton]%elem_of_app;
        [by apply Hf|].
      cbn. unfold undiscovered_surrounding_cells.
      rewrite !elem_of_difference, !elem_of_intersection. tauto.
Qed.

Lemma init_sound : sound g (init (g_height g) (g_width g)).
Proof.
  split; cbn; try reflexivity.
  - intros c Hc. by apply not_elem_of_empty in Hc.
  - intros c Hc. by apply not_elem_of_empty in Hc.
  - intros s Hs. by apply not_elem_of_nil in Hs.
  - intros s c Hs. by apply not_elem_of_nil in Hs.
Qed.

Lemma add_knowledge_sound cell n st :
  sound g st → is_mine g cell = Some false → nearby_mines g cell = Some n →
  sound g (add_knowledge_val cell n st).1.
Proof.
  intros Hst Hcell Hn. unfold add_knowledge_val.
  apply consolidate_cells_sound, add_knowledge_direct_sound.
  - assumption.
  - by apply is_mine_false.
  - eapply nearby_mines_count; [| |exact Hn]; by destruct Hst.
Qed.

End Ingestion.

(** ** The order in which a set of cells is marked does not matter *)

Lemma Sentence_mark_safe_comm a b s :
  Sentence_.mark_safe a (Sentence_.mark_safe b s)
  = Sentence_.mark_safe b (Sentence_.mark_safe a s).
Proof.
  destruct (decide (a = b)) as [->|Hab]; [reflexivity|].
  unfold Sentence_.mark_safe.
  repeat (case_decide; cbn [cells count]); try reflexivity;
    try (exfalso; set_solver).
  f_equal. set_solver.
Qed.

Lemma Sentence_mark_mine_comm a b s :
  Sentence_.mark_mine a (Sentence_.mark_mine b s)
  = Sentence_.mark_mine b (Sentence_.mark_mine a s).
Proof.
  destruct (decide (a = b)) as [->|Hab]; [reflexivity|].
  unfold Sentence_.mark_mine.
  repeat (case_decide; cbn [cells count]); try reflexivity;
    try (exfalso; set_solver).
  f_equal. set_solver.
Qed.

Lemma mark_safe_comm a b st :
  mark_safe a (mark_safe b st) = mark_safe b (mark_safe a st).
Proof.
  unfold mark_safe; cbn. f_equal.
  - set_solver.
  - rewrite <- !list_fmap_compose. apply list_fmap_ext.
    intros _ s _. apply Sentence_mark_safe_comm.
Qed.

Lemma mark_mine_comm a b st :
  mark_mine a (mark_mine b st) = mark_mine b (mark_mine a st).
Proof.
  unfold mark_mine; cbn. f_equal.
  - set_solver.
  - rewrite <- !list_fmap_compose. apply list_fmap_ext.
    intros _ s _. apply Sentence_mark_mine_comm.
Qed.

Lemma mark_safe_cells_perm cs cs' st :
  cs ≡ₚ cs' → mark_safe_cells cs st = mark_safe_cells cs' st.
Proof.
  intros Hp. revert st.
  induction Hp as [|c l l' _ IH|a b l|l1 l2 l3 _ IH1 _ IH2]; intros st.
  - reflexivity.
  - rewrite !mark_safe_cells_cons. apply IH.
  - rewrite !mark_safe_cells_cons. by rewrite mark_safe_comm.
  - by rewrite IH1.
Qed.

Lemma mark_mine_cells_perm cs cs' st :
  cs ≡ₚ cs' → mark_mine_cells cs st = mark_mine_cells cs' st.
Proof.
  intros Hp. revert st.
  induction Hp as [|c l l' _ IH|a b l|l1 l2 l3 _ IH1 _ IH2]; intros st.
  - reflexivity.
  - rewrite !mark_mine_cells_cons. apply IH.
  - rewrite !mark_mine_cells_cons. by rewrite mark_mine_comm.
  - by rewrite IH1.
Qed.

(** ** Marking and the local variables of consolidate_cells *)

(** A sentence is not touched by the marking of cells it does not have:
    this is why [sentence1] keeps its fields during the inner loop. *)
Lemma mark_safe_cells_keeps cs : ∀ st idx s,
  (∀ c, c ∈ cs → c ∉ cells s) →
  knowledge st !! idx = Some s →
  knowledge (mark_safe_cells cs st) !! idx = Some s.
Proof.
  induction cs as [|c cs IH]; intros st idx s Hcs Hs; [assumption|].
  rewrite mark_safe_cells_cons. apply IH.
  - intros c' Hc'. apply Hcs. by right.
  - cbn. rewrite list_lookup_fmap, Hs. cbn. f_equal.
    unfold Sentence_.mark_safe. rewrite decide_True; [reflexivity|].
    apply Hcs. by left.
Qed.

Lemma mark_mine_cells_keeps cs : ∀ st idx s,
  (∀ c, c ∈ cs → c ∉ cells s) →
  knowledge st !! idx = Some s →
  knowledge (mark_mine_cells cs st) !! idx = Some s.
Proof.
  induction cs as [|c cs IH]; intros st idx s Hcs Hs; [assumption|].
  rewrite mark_mine_cells_cons. apply IH.
  - intros c' Hc'. apply Hcs. by right.
  - cbn. rewrite list_lookup_fmap, Hs. cbn. f_equal.
    unfold Sentence_.mark_mine. rewrite decide_True; [reflexivity|].
    apply Hcs. by left.
Qed.

(** In the first loop the object bound to [sentence] is found again in its
    slot after the marks, so [remove] always finds something to delete. *)
Lemma resolve_step_returns idx s st :
  knowledge st !! idx = Some s → (resolve_step idx s st).2 = Returned.
Proof.
  intros Hs. unfold resolve_step.
  assert (∀ st', length (knowledge st') = length (knowledge st) →
                 deref st' (Some idx, s) ∈ knowledge st') as Hback.
  { intros st' Hl. unfold deref. cbn.
    destruct (knowledge st' !! idx) as [s'|] eqn:E.
    - by eapply list_elem_of_lookup_2.
    - apply lookup_ge_None in E. apply lookup_lt_Some in Hs. lia. }
  repeat case_decide.
  - apply list_remove_elem_of. by eapply list_elem_of_lookup_2.
  - apply list_remove_elem_of, Hback, mark_safe_cells_fields.
  - apply list_remove_elem_of, Hback, mark_mine_cells_fields.
  - reflexivity.
Qed.

(** ** mark_mine and mark_safe twice *)

Lemma Sentence_mark_mine_twice c s :
  Sentence_.mark_mine c (Sentence_.mark_mine c s) = Sentence_.mark_mine c s.
Proof.
  unfold Sentence_.mark_mine.
  destruct (decide (c ∉ cells s)) as [Hc|Hc].
  - by rewrite decide_True.
  - cbn. rewrite decide_True; [reflexivity|].
    rewrite elem_of_difference, elem_of_singleton. tauto.
Qed.

Lemma Sentence_mark_safe_twice c s :
  Sentence_.mark_safe c (Sentence_.mark_safe c s) = Sentence_.mark_safe c s.
Proof.
  unfold Sentence_.mark_safe.
  destruct (decide (c ∉ cells s)) as [Hc|Hc].
  - by rewrite decide_True.
  - cbn. rewrite decide_True; [reflexivity|].
    rewrite elem_of_difference, elem_of_singleton. tauto.
Qed.

(** ** The three sets only grow *)

Lemma grows_trans st1 st2 st3 : grows st1 st2 → grows st2 st3 → grows st1 st3.
Proof.
  intros (Hm&Hs&Hn) (Hm'&Hs'&Hn').
  split; [by etrans|]. split; by etrans.
Qed.

Lemma settles_grows st st' : settles st st' → grows st st'.
Proof.
  intros (_&_&Hm&Hs&Hn&_). split; [by rewrite Hm|]. by split.
Qed.

Lemma mark_mine_grows c st : grows st (mark_mine c st).
Proof. apply settles_grows, (mark_mine_cells_settles [c]). Qed.

Lemma mark_safe_grows c st : grows st (mark_safe c st).
Proof. apply settles_grows, (mark_safe_cells_settles [c]). Qed.

Lemma add_move_grows c st : grows st (add_move c st).
Proof.
  split; [apply union_subseteq_r|]. split; by apply reflexive_eq.
Qed.

Lemma add_knowledge_direct_grows cell n st :
  grows st (add_knowledge_direct cell n st).
Proof.
  unfold add_knowledge_direct.
  eapply grows_trans; [apply (add_move_grows cell)|].
  eapply grows_trans; [apply (mark_safe_grows cell)|].
  generalize (mark_safe cell (add_move cell st)). intros st1.
  generalize (surrounding_cells st1 cell). intros surrounding.
  eapply grows_trans.
  { instantiate (1 := if decide (len surrounding = n)
                      then mark_mine_cells (elements surrounding) st1 else st1).
    case_decide; apply settles_grows;
      [apply mark_mine_cells_settles|apply settles_refl]. }
  generalize (if decide (len surrounding = n)
              then mark_mine_cells (elements surrounding) st1 else st1).
  intros st2.
  eapply grows_trans.
  { instantiate (1 := if decide (n = 0)
                      then mark_safe_cells (elements surrounding) st2 else st2).
    case_decide; apply settles_grows;
      [apply mark_safe_cells_settles|apply settles_refl]. }
  generalize (if decide (n = 0)
              then mark_safe_cells (elements surrounding) st2 else st2).
  intros st3.
  repeat case_decide.
  - apply settles_grows, mark_mine_cells_settles.
  - split; [|split]; by apply reflexive_eq.
  - apply settles_grows, settles_refl.
Qed.

(** ** States in which no rule applies *)

Lemma elem_of_indexed l i s : l !! i = Some s → (i, s) ∈ indexed l.
Proof.
  intros H. unfold indexed. apply list_elem_of_lookup. exists i.
  by rewrite list_lookup_imap, H.
Qed.

Lemma resolve_step_quiet idx s st :
  ¬ rule_A_enabled s → resolve_step idx s st = (st, Returned).
Proof.
  unfold rule_A_enabled, resolve_step. intros H.
  repeat case_decide; tauto.
Qed.

Lemma resolve_loop_quiet st :
  Forall (λ s, ¬ rule_A_enabled s) (knowledge st) →
  ∀ fuel idx, resolve_loop fuel idx st = (st, Returned).
Proof.
  intros HA. induction fuel as [|fuel IH]; intros idx; cbn; [reflexivity|].
  destruct (knowledge st !! idx) as [s|] eqn:E; [|reflexivity].
  rewrite resolve_step_quiet.
  - unfold and_then. cbn. apply IH.
  - rewrite Forall_forall in HA. apply HA. by eapply list_elem_of_lookup_2.
Qed.

Lemma subset_step_quiet s1 s2 st :
  ¬ rule_B_enabled s1 s2 → subset_step_val s1 s2 st = (st, Returned).
Proof.
  unfold rule_B_enabled, subset_step_val. intros H.
  repeat case_decide; tauto.
Qed.

Lemma inner_loop_quiet st idx1 s1 :
  (∀ idx2 s2, idx1 ≠ idx2 ∨ (256 < idx1)%nat →
              knowledge st !! idx2 = Some s2 → ¬ rule_B_enabled s1 s2) →
  ∀ fuel idx2, inner_loop_val fuel idx1 s1 idx2 st = (st, Returned).
Proof.
  intros HB. induction fuel as [|fuel IH]; intros idx2; cbn; [reflexivity|].
  destruct (knowledge st !! idx2) as [s2|] eqn:E; [|reflexivity].
  case_decide as Hne.
  - rewrite subset_step_quiet by eauto. unfold and_then. cbn. apply IH.
  - unfold and_then. cbn. apply IH.
Qed.

(** With at most 257 sentences every index is one of the ints CPython
    shares, and the second loop compares a sentence with the others only. *)
Lemma outer_loop_quiet st :
  (length (knowledge st) ≤ 257)%nat →
  (∀ idx1 idx2 s1 s2, idx1 ≠ idx2 → knowledge st !! idx1 = Some s1 →
                      knowledge st !! idx2 = Some s2 → ¬ rule_B_enabled s1 s2) →
  ∀ fuel idx1, outer_loop_val fuel idx1 st = (st, Returned).
Proof.
  intros Hlen HB. induction fuel as [|fuel IH]; intros idx1; cbn; [reflexivity|].
  destruct (knowledge st !! idx1) as [s1|] eqn:E; [|reflexivity].
  rewrite inner_loop_quiet.
  - unfold and_then. cbn. apply IH.
  - intros idx2 s2 [Hne|Hbig] E2; [by eapply HB|].
    apply lookup_lt_Some in E. lia.
Qed.

(** ** The move selectors *)

Lemma elem_of_grid_cells st (c : Cell) :
  c ∈ grid_cells st ↔ 0 <= c.1 < height st ∧ 0 <= c.2 < width st.
Proof.
  unfold grid_cells. rewrite elem_of_list_to_set, list_elem_of_bind. split.
  - intros (i & (j & Hc%list_elem_of_singleton & Hj%elem_of_seqZ)%list_elem_of_bind
            & Hi%elem_of_seqZ).
    subst c. cbn. lia.
  - intros [Hi Hj]. exists c.1. split; [|apply elem_of_seqZ; lia].
    apply list_elem_of_bind. exists c.2. split; [|apply elem_of_seqZ; lia].
    apply list_elem_of_singleton. by destruct c.
Qed.

Lemma undiscovered_row (moves : gset Cell) (i : Z) (c : Cell) js : ∀ acc : gset Cell,
  c ∈ foldl (λ acc j, if decide ((i, j) ∉ moves) then {[(i, j)]} ∪ acc else acc)
            acc js
  ↔ c ∈ acc ∨ (c.1 = i ∧ c.2 ∈ js ∧ c ∉ moves).
Proof.
  induction js as [|j js IH]; intros acc; cbn [foldl].
  - rewrite elem_of_nil. tauto.
  - rewrite IH, elem_of_cons. case_decide as Hj.
    + rewrite elem_of_union, elem_of_singleton. split.
      * intros [[->|?]|?]; cbn; tauto.
      * intros [?|(Hi & [Hc|?] & ?)]; try tauto.
        left. left. destruct c; cbn in *. congruence.
    + split; [tauto|].
      intros [?|(Hi & [Hc|?] & Hm)]; try tauto.
      exfalso. apply Hm. destruct c; cbn in *. by subst.
Qed.

Lemma undiscovered_rows (moves : gset Cell) (js : list Z) (c : Cell) rows :
  ∀ acc : gset Cell,
  c ∈ foldl (λ acc i,
               foldl (λ acc j, if decide ((i, j) ∉ moves)
                               then {[(i, j)]} ∪ acc else acc) acc js)
            acc rows
  ↔ c ∈ acc ∨ (c.1 ∈ rows ∧ c.2 ∈ js ∧ c ∉ moves).
Proof.
  induction rows as [|i rows IH]; intros acc; cbn [foldl].
  - rewrite elem_of_nil. tauto.
  - rewrite IH, undiscovered_row, elem_of_cons. tauto.
Qed.

Lemma elem_of_get_undiscovered_cells st (c : Cell) :
  c ∈ get_undiscovered_cells st ↔ c ∈ grid_cells st ∧ c ∉ moves_made st.
Proof.
  unfold get_undiscovered_cells.
  rewrite undiscovered_rows, elem_of_grid_cells, !elem_of_seqZ, elem_of_empty.
  intuition lia.
Qed.

(** The list [make_random_move] indexes holds the candidates. *)
Lemma elem_of_random_list listing st (c : Cell) :
  listing_contract listing →
  c ∈ filter (λ x : Cell, x ∉ mines st) (listing (get_undiscovered_cells st))
  ↔ c ∈ random_candidates st.
Proof.
  intros Hl. unfold random_candidates.
  rewrite list_elem_of_filter, (Hl _), elem_of_elements,
    elem_of_get_undiscovered_cells, !elem_of_difference. tauto.
Qed.

Lemma pop_first_contract : pop_contract pop_first.
Proof.
  intros s Hs. unfold pop_first.
  destruct (elements s) as [|c l] eqn:E.
  - apply elements_empty_inv in E. apply leibniz_equiv in E. contradiction.
  - cbn. assert (c ∈ elements s) as H by (rewrite E; left).
    by apply elem_of_elements in H.
Qed.

Lemma randint_low_contract : randint_contract randint_low.
Proof. intros a b H. unfold randint_low. lia. Qed.

Lemma elements_listing_contract : listing_contract elements.
Proof. intros s. reflexivity. Qed.

(** ** The reference of sentence1 and its fields

    As long as the reference stands for an object with the fields [s1],
    found in its slot if it is still in the list, the body of the inner loop
    does what it does on these fields, and the reference stays such. *)
Lemma deref_tracks st (r : sref) s1 :
  r.2 = s1 → (∀ i, r.1 = Some i → knowledge st !! i = Some s1) →
  deref st r = s1.
Proof.
  intros H2 H1. unfold deref. destruct r as [[i|] s]; cbn in *; [|assumption].
  by rewrite (H1 i eq_refl).
Qed.

Lemma index_of_first x l k i :
  index_of x l = Some k → l !! i = Some x → (k ≤ i)%nat.
Proof.
  revert k i. induction l as [|y l IH]; intros k i; cbn; [discriminate|].
  destruct (decide (y = x)) as [->|Hne].
  - intros [= <-] _. lia.
  - destruct (index_of x l) as [j|] eqn:E; cbn; [|discriminate].
    intros [= <-]. destruct i as [|i]; cbn.
    + intros [= ->]. contradiction.
    + intros Hi. specialize (IH j i eq_refl Hi). lia.
Qed.

Lemma remove_tracked_by_value st (r : sref) s1 :
  r.2 = s1 → (∀ i, r.1 = Some i → knowledge st !! i = Some s1) →
  (remove_tracked r st).1 = list_remove s1 st
  ∧ (remove_tracked r st).2.2 = s1
  ∧ (∀ i, (remove_tracked r st).2.1 = Some i →
          knowledge (remove_tracked r st).1.1 !! i = Some s1).
Proof.
  intros H2 H1. unfold remove_tracked.
  rewrite (deref_tracks st r s1 H2 H1). cbn.
  split; [reflexivity|]. split; [reflexivity|].
  unfold list_remove.
  destruct (index_of s1 (knowledge st)) as [k|] eqn:E; cbn; [|exact H1].
  destruct r as [[j|] s]; cbn in *; [|discriminate].
  specialize (H1 j eq_refl). pose proof (index_of_first _ _ _ _ E H1) as Hk.
  intros i. repeat case_decide; intros [= <-].
  - rewrite list_lookup_delete_ge by lia.
    replace (S (pred j)) with j by lia. assumption.
  - lia.
Qed.

Lemma subset_step_by_value st (r : sref) s1 s2 :
  r.2 = s1 → (∀ i, r.1 = Some i → knowledge st !! i = Some s1) →
  (subset_step r s2 st).1 = subset_step_val s1 s2 st
  ∧ (subset_step r s2 st).2.2 = s1
  ∧ (∀ i, (subset_step r s2 st).2.1 = Some i →
          knowledge (subset_step r s2 st).1.1 !! i = Some s1).
Proof.
  intros H2 H1. unfold subset_step, subset_step_val.
  rewrite (deref_tracks st r s1 H2 H1). cbn zeta.
  assert (∀ c, c ∈ elements (cells s2 ∖ cells s1) → c ∉ cells s1) as Hout.
  { intros c Hc%elem_of_elements. apply elem_of_difference in Hc. tauto. }
  repeat case_decide; cbn [fst snd]; try (by repeat split).
  - by apply remove_tracked_by_value.
  - apply remove_tracked_by_value; [assumption|].
    intros i Hi. apply mark_safe_cells_keeps; auto.
  - split; [reflexivity|]. split; [assumption|].
    intros i Hi. apply mark_mine_cells_keeps; auto.
Qed.

Lemma inner_loop_by_value fuel idx1 s1 : ∀ idx2 st (r : sref),
  r.2 = s1 → (∀ i, r.1 = Some i → knowledge st !! i = Some s1) →
  inner_loop fuel idx1 r idx2 st = inner_loop_val fuel idx1 s1 idx2 st.
Proof.
  induction fuel as [|fuel IH]; intros idx2 st r H2 H1; cbn; [reflexivity|].
  destruct (knowledge st !! idx2) as [s2|] eqn:E; [|reflexivity].
  case_decide as Hne.
  - pose proof (subset_step_by_value st r s1 s2 H2 H1) as (Hv & H2' & H1').
    destruct (subset_step r s2 st) as [[st' o] r']. cbn in *.
    rewrite <- Hv. unfold and_then. cbn.
    destruct o; [|reflexivity]. by apply IH.
  - cbn. unfold and_then. cbn. by apply IH.
Qed.

Lemma outer_loop_by_value fuel : ∀ idx1 st,
  outer_loop fuel idx1 st = outer_loop_val fuel idx1 st.
Proof.
  induction fuel as [|fuel IH]; intros idx1 st; cbn; [reflexivity|].
  destruct (knowledge st !! idx1) as [s1|] eqn:E; [|reflexivity].
  rewrite (inner_loop_by_value _ _ s1);
    [|reflexivity|by intros i [= <-]].
  unfold and_then.
  destruct (inner_loop_val _ idx1 s1 0 st) as [st' []]; cbn;
    [apply IH|reflexivity].
Qed.

(** The two readings of [consolidate_cells] and of [add_knowledge] are the
    same function. *)
Lemma consolidate_cells_by_value st :
  consolidate_cells st = consolidate_cells_val st.
Proof.
  unfold consolidate_cells, consolidate_cells_val, and_then.
  destruct (resolve_loop _ 0 st) as [st' []]; cbn; [|reflexivity].
  apply outer_loop_by_value.
Qed.

Lemma add_knowledge_by_value cell n st :
  add_knowledge cell n st = add_knowledge_val cell n st.
Proof. apply consolidate_cells_by_value. Qed.

(** The fuel of the loops is enough for the method as well. *)
Lemma inner_loop_enough_fuel fuel extra idx1 idx2 st (r : sref) :
  (∀ i, r.1 = Some i → knowledge st !! i = Some r.2) →
  (length (knowledge st) ≤ idx2 + fuel)%nat →
  inner_loop (fuel + extra) idx1 r idx2 st = inner_loop fuel idx1 r idx2 st.
Proof.
  intros Hr Hlen. rewrite !(inner_loop_by_value _ _ r.2) by done.
  by apply inner_loop_fuel.
Qed.

Lemma consolidate_cells_enough_fuel st extra1 extra2 :
  resolve_loop (length (knowledge st) + extra1) 0 st >>>
    (λ st', outer_loop (length (knowledge st') + extra2) 0 st')
  = consolidate_cells st.
Proof.
  rewrite consolidate_cells_by_value, <- (consolidate_cells_fuel st extra1 extra2).
  unfold and_then.
  destruct (resolve_loop _ 0 st) as [st' []]; cbn; [|reflexivity].
  apply outer_loop_by_value.
Qed.

(** ** Reachable states are sound *)

Lemma reachable_sound g st : reachable g st → sound g st.
Proof.
  induction 1 as [|st cell n _ IH Hcell Hn].
  - apply init_sound.
  - rewrite add_knowledge_by_value. by apply add_knowledge_sound.
Qed.

(** * The claims *)

(** C1.  The claim: when the unknown neighbours are not empty and
    [remaining = count - |known mines|] is 0, [add_knowledge] marks every
    unknown neighbour safe.  The code at a state reached by true clues: on
    [row_board], after the clue of (0,1) has made (0,0) and (0,2) known
    mines, the clue of (0,3) is 1; the only unknown neighbour is (0,4) and no
    mine is left to find.  The guard of line 223 asks for
    [undiscovered_surrounding_mines_count > 0], the block is skipped, and
    (0,4) is not in [safes] when the call returns. *)
Lemma add_knowledge_leaves_unknown_neighbour :
  let st1 := (add_knowledge (0, 1) 2 (init 1 5)).1 in
  let st2 := mark_safe (0, 3) (add_move (0, 3) st1) in
  let surrounding := surrounding_cells st2 (0, 3) in
  is_mine row_board (0, 1) = Some false
  ∧ nearby_mines row_board (0, 1) = Some 2
  ∧ is_mine row_board (0, 3) = Some false
  ∧ nearby_mines row_board (0, 3) = Some 1
  ∧ undiscovered_surrounding_cells st2 surrounding = {[ (0, 4) ]}
  ∧ undiscovered_surrounding_mines_count st2 surrounding 1 = 0
  ∧ (add_knowledge (0, 3) 1 st1).2 = Returned
  ∧ (0, 4) ∉ safes (add_knowledge (0, 3) 1 st1).1.
Proof.
  intros st1 st2 surrounding.
  split; [vm_compute; reflexivity|].
  split; [vm_compute; reflexivity|].
  split; [vm_compute; reflexivity|].
  split; [vm_compute; reflexivity|].
  split; [apply (bool_decide_unpack _); vm_compute; reflexivity|].
  split; [vm_compute; reflexivity|].
  split; [vm_compute; reflexivity|].
  apply (bool_decide_unpack _). vm_compute. reflexivity.
Qed.

(** C2, as stated, fails: on [chain_kb] the first run of [consolidate_cells]
    marks (0,2) safe by Rule B, which leaves the sentence {(0,3)} = 1; only a
    second run marks (0,3) as a mine and drops that sentence. *)
Lemma consolidate_cells_second_run_changes :
  (consolidate_cells chain_kb).2 = Returned
  ∧ knowledge (consolidate_cells chain_kb).1
    = [ mkSentence {[ (0, 0); (0, 1) ]} 1; mkSentence {[ (0, 3) ]} 1 ]
  ∧ mines (consolidate_cells chain_kb).1 = ∅
  ∧ knowledge (consolidate_cells (consolidate_cells chain_kb).1).1
    = [ mkSentence {[ (0, 0); (0, 1) ]} 1 ]
  ∧ mines (consolidate_cells (consolidate_cells chain_kb).1).1 = {[ (0, 3) ]}
  ∧ (consolidate_cells (consolidate_cells chain_kb).1).1
    ≠ (consolidate_cells chain_kb).1.
Proof.
  assert (mines (consolidate_cells chain_kb).1 = ∅) as H1
    by (apply (bool_decide_unpack _); vm_compute; reflexivity).
  assert (mines (consolidate_cells (consolidate_cells chain_kb).1).1
          = {[ (0, 3) ]}) as H2
    by (apply (bool_decide_unpack _); vm_compute; reflexivity).
  split; [vm_compute; reflexivity|].
  split; [apply (bool_decide_unpack _); vm_compute; reflexivity|].
  split; [exact H1|].
  split; [apply (bool_decide_unpack _); vm_compute; reflexivity|].
  split; [exact H2|].
  intros E. rewrite E, H1 in H2.
  apply (not_elem_of_empty (C:=gset Cell) (0, 3)). rewrite H2.
  by apply elem_of_singleton.
Qed.

(** The same on a state reached by true clues.  On [row_board_one] the
    clues of (0,1), (0,3) and (0,0) leave the sentence {(0,4)} = 0 in the
    list: the first loop removed the sentence before it and its iterator
    stepped over this one. *)
Lemma consolidate_cells_steps_over_sentence :
  let st := (add_knowledge (0, 0) 0
               (add_knowledge (0, 3) 1
                  (add_knowledge (0, 1) 1 (init 1 5)).1).1).1 in
  nearby_mines row_board_one (0, 1) = Some 1
  ∧ nearby_mines row_board_one (0, 3) = Some 1
  ∧ nearby_mines row_board_one (0, 0) = Some 0
  ∧ knowledge st = [ mkSentence {[ (0, 4) ]} 0 ]
  ∧ ((0, 4) ∉ safes st)
  ∧ (0, 4) ∈ safes (consolidate_cells st).1.
Proof.
  intros st.
  split; [vm_compute; reflexivity|].
  split; [vm_compute; reflexivity|].
  split; [vm_compute; reflexivity|].
  split; [apply (bool_decide_unpack _); vm_compute; reflexivity|].
  split; apply (bool_decide_unpack _); vm_compute; reflexivity.
Qed.

(** C2, amended.  [consolidate_cells] makes one pass of Rule A and one pass
    of Rule B.  On a state that holds at most 257 sentences and in which no
    rule applies (no stored sentence is empty, has count 0 or has as many
    mines as cells, and no ordered pair of sentences at different indexes
    meets a condition of Rule B) it returns and changes nothing. *)
Theorem consolidate_cells_quiescent (st : MinesweeperAI) :
  (length (knowledge st) ≤ 257)%nat →
  quiescent st → consolidate_cells st = (st, Returned).
Proof.
  intros Hlen [HA HB]. rewrite consolidate_cells_by_value.
  unfold consolidate_cells_val.
  rewrite resolve_loop_quiet by exact HA. unfold and_then. cbn.
  apply outer_loop_quiet; [exact Hlen|].
  intros idx1 idx2 s1 s2 Hne H1%elem_of_indexed H2%elem_of_indexed.
  rewrite Forall_forall in HB. specialize (HB _ H1).
  rewrite Forall_forall in HB. exact (HB _ H2 Hne).
Qed.

(** C2, amended, on two sentences that no rule relates. *)
Lemma consolidate_cells_quiescent_witness :
  let st := set_knowledge
              [ mkSentence {[ (0, 0); (0, 1) ]} 1;
                mkSentence {[ (0, 1); (0, 2); (0, 3) ]} 2 ] (init 1 4) in
  (length (knowledge st) ≤ 257)%nat
  ∧ quiescent st ∧ consolidate_cells st = (st, Returned).
Proof.
  intros st.
  assert (length (knowledge st) ≤ 257)%nat as Hlen by (cbn; lia).
  assert (quiescent st) as H
    by (apply (bool_decide_unpack _); vm_compute; reflexivity).
  split; [exact Hlen|]. split; [exact H|].
  exact (consolidate_cells_quiescent st Hlen H).
Defined.

(** C3. In every state reached from the initial one by [add_knowledge] calls
    with true clues of one board (the revealed cell is not a mine, the count
    is the board's count of adjacent mines), [safes] and [mines] are
    disjoint. *)
Theorem safes_mines_disjoint (g : Minesweeper) (st : MinesweeperAI) :
  reachable g st → safes st ∩ mines st = ∅.
Proof.
  intros Hst%reachable_sound. apply set_eq. intros c.
  rewrite elem_of_intersection. split.
  - intros [Hs Hm]. exfalso.
    eapply sound_safes; [exact Hst|exact Hs|]. by eapply sound_mines.
  - intros H. by apply not_elem_of_empty in H.
Qed.

(** C3 on [row_board], after the clue of (0,1). *)
Lemma safes_mines_disjoint_witness :
  reachable row_board (add_knowledge (0, 1) 2 (init 1 5)).1
  ∧ safes (add_knowledge (0, 1) 2 (init 1 5)).1
    ∩ mines (add_knowledge (0, 1) 2 (init 1 5)).1 = ∅.
Proof.
  assert (reachable row_board (add_knowledge (0, 1) 2 (init 1 5)).1) as H.
  { apply (reachable_add row_board (init 1 5) (0, 1) 2).
    - apply (reachable_init row_board).
    - vm_compute. reflexivity.
    - vm_compute. reflexivity. }
  split; [exact H|]. exact (safes_mines_disjoint row_board _ H).
Defined.

(** C4, as stated, fails: the clue of the corner (2,2) does not mark all
    eight other cells safe; (0,0), the mine, is left alone. *)
Lemma corner_clue_not_all_safe :
  nearby_mines corner_board (2, 2) = Some 0
  ∧ ¬ ((∀ c, c ∈ other_cells → c ∈ safes (add_knowledge (2, 2) 0 (init 3 3)).1)
       ∧ mines (add_knowledge (2, 2) 0 (init 3 3)).1 = ∅).
Proof.
  split; [vm_compute; reflexivity|].
  intros [Hall _].
  assert ((0, 0) ∉ safes (add_knowledge (2, 2) 0 (init 3 3)).1) as Hno
    by (apply (bool_decide_unpack _); vm_compute; reflexivity).
  apply Hno, Hall. left.
Qed.

(** C4, amended.  On a 3 x 3 grid, [add_knowledge((2,2), 0)] on a fresh
    knowledge base marks the three neighbours (1,1), (1,2), (2,1) of the
    corner safe, with (2,2) itself; the five other cells are not marked;
    [mines] stays empty and no sentence is stored. *)
Theorem corner_clue_marks_neighbours :
  (add_knowledge (2, 2) 0 (init 3 3)).2 = Returned
  ∧ safes (add_knowledge (2, 2) 0 (init 3 3)).1
    = {[ (1, 1); (1, 2); (2, 1); (2, 2) ]}
  ∧ mines (add_knowledge (2, 2) 0 (init 3 3)).1 = ∅
  ∧ moves_made (add_knowledge (2, 2) 0 (init 3 3)).1 = {[ (2, 2) ]}
  ∧ knowledge (add_knowledge (2, 2) 0 (init 3 3)).1 = [].
Proof.
  split; [vm_compute; reflexivity|].
  split; [apply (bool_decide_unpack _); vm_compute; reflexivity|].
  split; [apply (bool_decide_unpack _); vm_compute; reflexivity|].
  split; [apply (bool_decide_unpack _); vm_compute; reflexivity|].
  vm_compute. reflexivity.
Qed.

(** C5. In every reachable state every stored sentence has
    [0 <= count <= |cells|], and none of its cells is in [safes] or in
    [mines]. *)
Theorem stored_sentence_well_formed (g : Minesweeper) (st : MinesweeperAI) (s : Sentence) :
  reachable g st → s ∈ knowledge st →
  0 <= count s <= len (cells s)
  ∧ (∀ c, c ∈ cells s → (c ∉ safes st) ∧ (c ∉ mines st)).
Proof.
  intros Hst%reachable_sound Hs. split.
  - rewrite (sound_true _ _ Hst s Hs). apply mine_count_bounds.
  - intros c Hc. by eapply sound_fresh.
Qed.

(** C5 on [row_board_one], after the clue of (0,1) has stored a sentence. *)
Lemma stored_sentence_well_formed_witness :
  let st := (add_knowledge (0, 1) 1 (init 1 5)).1 in
  let s := mkSentence {[ (0, 0); (0, 2) ]} 1 in
  reachable row_board_one st ∧ s ∈ knowledge st
  ∧ 0 <= count s <= len (cells s)
  ∧ (∀ c, c ∈ cells s → (c ∉ safes st) ∧ (c ∉ mines st)).
Proof.
  intros st s.
  assert (reachable row_board_one st) as H.
  { apply (reachable_add row_board_one (init 1 5) (0, 1) 1).
    - apply (reachable_init row_board_one).
    - vm_compute. reflexivity.
    - vm_compute. reflexivity. }
  assert (s ∈ knowledge st) as Hs.
  { apply (bool_decide_unpack _). vm_compute. reflexivity. }
  split; [exact H|]. split; [exact Hs|].
  exact (stored_sentence_well_formed row_board_one st s H Hs).
Defined.

(** C6. [mark_mine] and [mark_safe] of the knowledge base are idempotent:
    a second call with the same cell gives exactly the state of the first
    call: same [moves_made], [safes], [mines], same cells and count in every
    sentence.  In particular the second call decrements no count. *)
Theorem mark_twice_same_state (st : MinesweeperAI) (c : Cell) :
  mark_mine c (mark_mine c st) = mark_mine c st
  ∧ mark_safe c (mark_safe c st) = mark_safe c st.
Proof.
  split.
  - unfold mark_mine; cbn. f_equal.
    + by rewrite (assoc_L (∪)), (idemp_L (∪)).
    + rewrite <- list_fmap_compose. apply list_fmap_ext.
      intros _ s _. apply Sentence_mark_mine_twice.
  - unfold mark_safe; cbn. f_equal.
    + by rewrite (assoc_L (∪)), (idemp_L (∪)).
    + rewrite <- list_fmap_compose. apply list_fmap_ext.
      intros _ s _. apply Sentence_mark_safe_twice.
Qed.

(** C7. [make_safe_move] hands back some element of [safes - moves_made]
    when that set is not empty and [None] when it is, and leaves the whole
    state as it was. *)
Theorem make_safe_move_spec (pop : cellset → Cell) (st : MinesweeperAI) :
  pop_contract pop →
  (make_safe_move pop st).1 = st
  ∧ (safes st ∖ moves_made st ≠ ∅ →
     ∃ c, (make_safe_move pop st).2 = Chosen c ∧ c ∈ safes st ∖ moves_made st)
  ∧ (safes st ∖ moves_made st = ∅ → (make_safe_move pop st).2 = NoMove).
Proof.
  intros Hpop. unfold make_safe_move, len.
  split; [by case_decide|]. split.
  - intros Hne. rewrite decide_True.
    + eexists. split; [reflexivity|]. by apply Hpop.
    + intros H0. apply Hne, leibniz_equiv, size_empty_iff. lia.
  - intros ->. by rewrite size_empty.
Qed.

(** C7 with the pop of the first element, after (0,4) was marked safe. *)
Lemma make_safe_move_spec_witness :
  let st := mark_safe (0, 4) (init 1 5) in
  pop_contract pop_first
  ∧ (make_safe_move pop_first st).1 = st
  ∧ (safes st ∖ moves_made st ≠ ∅ →
     ∃ c, (make_safe_move pop_first st).2 = Chosen c
          ∧ c ∈ safes st ∖ moves_made st)
  ∧ (safes st ∖ moves_made st = ∅ → (make_safe_move pop_first st).2 = NoMove).
Proof.
  intros st. split; [exact pop_first_contract|].
  exact (make_safe_move_spec pop_first st pop_first_contract).
Defined.

(** C8. [make_random_move] hands back [None] exactly when
    [(all grid cells) - moves_made - mines] is empty, and otherwise a member
    of that set: never a known mine, never a move already made.  The state
    is left as it was. *)
Theorem make_random_move_spec (listing : cellset → list Cell)
    (randint : Z → Z → Z) (st : MinesweeperAI) :
  listing_contract listing → randint_contract randint →
  (make_random_move listing randint st).1 = st
  ∧ ((make_random_move listing randint st).2 = NoMove
     ↔ random_candidates st = ∅)
  ∧ (random_candidates st ≠ ∅ →
     ∃ c, (make_random_move listing randint st).2 = Chosen c
          ∧ c ∈ random_candidates st ∧ (c ∉ mines st) ∧ (c ∉ moves_made st)).
Proof.
  intros Hlist Hrand. unfold make_random_move.
  set (l := filter (λ x : Cell, x ∉ mines st)
                   (listing (get_undiscovered_cells st))).
  assert (∀ c, c ∈ l ↔ c ∈ random_candidates st) as Hl
    by (intros c; by apply elem_of_random_list).
  assert (l = [] ↔ random_candidates st = ∅) as Hnil.
  { split.
    - intros E. apply set_eq. intros c. rewrite <- Hl, E.
      rewrite elem_of_nil, elem_of_empty. tauto.
    - intros E. destruct l as [|c l']; [reflexivity|].
      exfalso. apply (not_elem_of_empty (C:=gset Cell) c).
      rewrite <- E. apply Hl. left. }
  destruct (decide (Z.of_nat (length l) = 0)) as [H0|Hpos].
  - assert (l = []) as E by (destruct l; [reflexivity|cbn in H0; lia]).
    cbn. split; [reflexivity|]. split; [tauto|].
    intros Hne. exfalso. by apply Hne, Hnil.
  - specialize (Hrand 0 (Z.of_nat (length l) - 1) ltac:(lia)).
    set (k := randint 0 (Z.of_nat (length l) - 1)) in *.
    unfold py_index. rewrite decide_True by lia.
    destruct (lookup_lt_is_Some_2 l (Z.to_nat k) ltac:(lia)) as [c Hc].
    rewrite Hc. cbn. split; [reflexivity|]. split.
    + split; [discriminate|]. intros E%Hnil. rewrite E in Hpos. done.
    + intros _. exists c. split; [reflexivity|].
      assert (c ∈ random_candidates st) as Hin
        by (apply Hl; by eapply list_elem_of_lookup_2).
      split; [exact Hin|].
      unfold random_candidates in Hin.
      rewrite !elem_of_difference in Hin. tauto.
Qed.

(** C8 with the listing of [elements] and the draw of the lower bound, on
    a row of three cells where (0,1) was played and (0,0) is a known mine. *)
Lemma make_random_move_spec_witness :
  let st := mark_mine (0, 0) (add_move (0, 1) (init 1 3)) in
  listing_contract elements ∧ randint_contract randint_low
  ∧ (make_random_move elements randint_low st).1 = st
  ∧ ((make_random_move elements randint_low st).2 = NoMove
     ↔ random_candidates st = ∅)
  ∧ (random_candidates st ≠ ∅ →
     ∃ c, (make_random_move elements randint_low st).2 = Chosen c
          ∧ c ∈ random_candidates st ∧ (c ∉ mines st) ∧ (c ∉ moves_made st)).
Proof.
  intros st. split; [exact elements_listing_contract|].
  split; [exact randint_low_contract|].
  exact (make_random_move_spec elements randint_low st
           elements_listing_contract randint_low_contract).
Defined.

(** C9. [moves_made], [safes] and [mines] grow monotonically: for every
    state and every operation of the engine ([mark_mine], [mark_safe],
    [add_knowledge], [consolidate_cells], [make_safe_move],
    [make_random_move]) each of the three sets before the operation is a
    subset of the set after it, also when the operation raises. *)
Theorem sets_grow (st : MinesweeperAI) :
  (∀ c, grows st (mark_mine c st))
  ∧ (∀ c, grows st (mark_safe c st))
  ∧ (∀ c n, grows st (add_knowledge c n st).1)
  ∧ grows st (consolidate_cells st).1
  ∧ (∀ pop, grows st (make_safe_move pop st).1)
  ∧ (∀ listing randint, grows st (make_random_move listing randint st).1).
Proof.
  assert (grows st st) as Hrefl by apply settles_grows, settles_refl.
  split; [intros c; apply mark_mine_grows|].
  split; [intros c; apply mark_safe_grows|].
  split.
  { intros c n. rewrite add_knowledge_by_value. unfold add_knowledge_val.
    eapply grows_trans; [apply add_knowledge_direct_grows|].
    apply settles_grows, consolidate_cells_settles. }
  split.
  { rewrite consolidate_cells_by_value.
    apply settles_grows, consolidate_cells_settles. }
  split.
  - intros pop. unfold make_safe_move. by case_decide.
  - intros listing randint. unfold make_random_move.
    case_decide; [assumption|]. by destruct (py_index _ _).
Qed.

(** * Further properties *)

(** ** Marking a set of cells at once *)

Lemma Sentence_mark_safe_without c (s : Sentence) :
  Sentence_.mark_safe c s = without_safes {[c]} s.
Proof.
  unfold Sentence_.mark_safe, without_safes. case_decide as Hc; [|reflexivity].
  destruct s as [cs n]; cbn in *. f_equal.
  apply set_eq. intros c'. rewrite elem_of_difference, elem_of_singleton.
  split; [|tauto]. intros H. split; [assumption|]. by intros ->.
Qed.

Lemma Sentence_mark_mine_without c (s : Sentence) :
  Sentence_.mark_mine c s = without_mines {[c]} s.
Proof.
  unfold Sentence_.mark_mine, without_mines, len. case_decide as Hc.
  - destruct s as [cs n]; cbn in *.
    assert (cs ∩ {[c]} = ∅) as ->.
    { apply set_eq. intros c'.
      rewrite elem_of_intersection, elem_of_singleton, elem_of_empty.
      split; [|tauto]. intros [? ->]. contradiction. }
    rewrite size_empty. f_equal; [|lia].
    apply set_eq. intros c'. rewrite elem_of_difference, elem_of_singleton.
    split; [|tauto]. intros H. split; [assumption|]. by intros ->.
  - assert (cells s ∩ {[c]} = {[c]}) as ->.
    { apply set_eq. intros c'.
      rewrite elem_of_intersection, elem_of_singleton.
      split; [tauto|]. intros ->. split; [|reflexivity].
      by destruct (decide (c ∈ cells s)). }
    by rewrite size_singleton.
Qed.

Lemma without_safes_union (X Y : gset Cell) (s : Sentence) :
  without_safes Y (without_safes X s) = without_safes (X ∪ Y) s.
Proof.
  unfold without_safes; cbn. f_equal.
  apply set_eq. intros c. rewrite !elem_of_difference, elem_of_union. tauto.
Qed.

Lemma without_mines_union (X Y : gset Cell) (s : Sentence) :
  without_mines Y (without_mines X s) = without_mines (X ∪ Y) s.
Proof.
  unfold without_mines; cbn. f_equal.
  - apply set_eq. intros c. rewrite !elem_of_difference, elem_of_union. tauto.
  - rewrite (len_split (cells s ∩ (X ∪ Y)) X).
    assert (cells s ∩ (X ∪ Y) ∩ X = cells s ∩ X) as ->.
    { apply set_eq. intros c.
      rewrite !elem_of_intersection, elem_of_union. tauto. }
    assert ((cells s ∩ (X ∪ Y)) ∖ X = (cells s ∖ X) ∩ Y) as ->; [|lia].
    apply set_eq. intros c.
    rewrite !elem_of_difference, !elem_of_intersection, elem_of_union,
      elem_of_difference. tauto.
Qed.

Lemma mark_safe_cells_knowledge cs : ∀ st,
  knowledge (mark_safe_cells cs st)
  = without_safes (list_to_set cs) <$> knowledge st.
Proof.
  induction cs as [|c cs IH]; intros st.
  - cbn. rewrite <- (list_fmap_id (knowledge st)) at 1.
    apply list_fmap_ext. intros _ [X n] _. unfold without_safes; cbn.
    f_equal. apply set_eq. intros c. rewrite elem_of_difference, elem_of_empty.
    tauto.
  - rewrite mark_safe_cells_cons, IH. cbn.
    rewrite <- list_fmap_compose. apply list_fmap_ext. intros _ s _. cbn.
    by rewrite Sentence_mark_safe_without, without_safes_union.
Qed.

Lemma mark_mine_cells_knowledge cs : ∀ st,
  knowledge (mark_mine_cells cs st)
  = without_mines (list_to_set cs) <$> knowledge st.
Proof.
  induction cs as [|c cs IH]; intros st.
  - cbn. rewrite <- (list_fmap_id (knowledge st)) at 1.
    apply list_fmap_ext. intros _ [X n] _. unfold without_mines, len; cbn.
    assert (X ∩ ∅ = ∅) as -> by (apply set_eq; intros c;
      rewrite elem_of_intersection, elem_of_empty; tauto).
    rewrite size_empty. f_equal; [|lia].
    apply set_eq. intros c. rewrite elem_of_difference, elem_of_empty. tauto.
  - rewrite mark_mine_cells_cons, IH. cbn.
    rewrite <- list_fmap_compose. apply list_fmap_ext. intros _ s _. cbn.
    by rewrite Sentence_mark_mine_without, without_mines_union.
Qed.

Lemma mark_safe_cells_eq (cs : list Cell) (st : MinesweeperAI) :
  mark_safe_cells cs st
  = {| height := height st; width := width st; moves_made := moves_made st;
       mines := mines st; safes := list_to_set cs ∪ safes st;
       knowledge := without_safes (list_to_set cs) <$> knowledge st |}.
Proof.
  destruct (mark_safe_cells_fields cs st) as (Hh & Hw & Hm & Hn & Hs & _).
  pose proof (mark_safe_cells_knowledge cs st) as Hk.
  destruct (mark_safe_cells cs st); cbn in *. congruence.
Qed.

Lemma mark_mine_cells_eq (cs : list Cell) (st : MinesweeperAI) :
  mark_mine_cells cs st
  = {| height := height st; width := width st; moves_made := moves_made st;
       mines := list_to_set cs ∪ mines st; safes := safes st;
       knowledge := without_mines (list_to_set cs) <$> knowledge st |}.
Proof.
  destruct (mark_mine_cells_fields cs st) as (Hh & Hw & Hm & Hn & Hs & _).
  pose proof (mark_mine_cells_knowledge cs st) as Hk.
  destruct (mark_mine_cells cs st); cbn in *. congruence.
Qed.

(** The loops over a set, as the methods write them. *)
Lemma mark_safe_elements (X : gset Cell) (st : MinesweeperAI) :
  mark_safe_cells (elements X) st
  = {| height := height st; width := width st; moves_made := moves_made st;
       mines := mines st; safes := X ∪ safes st;
       knowledge := without_safes X <$> knowledge st |}.
Proof. by rewrite mark_safe_cells_eq, list_to_set_elements_L. Qed.

Lemma mark_mine_elements (X : gset Cell) (st : MinesweeperAI) :
  mark_mine_cells (elements X) st
  = {| height := height st; width := width st; moves_made := moves_made st;
       mines := X ∪ mines st; safes := safes st;
       knowledge := without_mines X <$> knowledge st |}.
Proof. by rewrite mark_mine_cells_eq, list_to_set_elements_L. Qed.

(** X1. Marking a list of cells safe, or as mines, cell after cell, is one
    operation on sets: the cells join [safes] (or [mines]); every stored
    sentence loses the marked cells it had and, for mines, as many units of
    its count; nothing else changes.  The result depends on the set of the
    cells only, not on their order or repetitions. *)
Theorem mark_cells_as_sets (cs : list Cell) (st : MinesweeperAI) :
  mark_safe_cells cs st
  = {| height := height st; width := width st; moves_made := moves_made st;
       mines := mines st; safes := list_to_set cs ∪ safes st;
       knowledge := without_safes (list_to_set cs) <$> knowledge st |}
  ∧ mark_mine_cells cs st
    = {| height := height st; width := width st; moves_made := moves_made st;
         mines := list_to_set cs ∪ mines st; safes := safes st;
         knowledge := without_mines (list_to_set cs) <$> knowledge st |}.
Proof. split; [apply mark_safe_cells_eq|apply mark_mine_cells_eq]. Qed.

(** ** What a call of add_knowledge leaves behind *)

Lemma prunes_refl st : prunes st st.
Proof. intros s Hs. exists s. split; [assumption|]. split; [done|lia]. Qed.

Lemma prunes_trans st1 st2 st3 : prunes st1 st2 → prunes st2 st3 → prunes st1 st3.
Proof.
  intros H12 H23 s Hs. destruct (H23 s Hs) as (s2 & Hs2 & Hc & Hn).
  destruct (H12 s2 Hs2) as (s1 & Hs1 & Hc' & Hn').
  exists s1. split; [assumption|]. split; [by etrans|lia].
Qed.

Lemma mark_safe_cells_prunes cs st : prunes st (mark_safe_cells cs st).
Proof.
  intros s. rewrite mark_safe_cells_knowledge.
  intros (s0 & -> & Hs0)%list_elem_of_fmap. exists s0.
  split; [assumption|]. cbn. split; [|lia].
  intros c Hc. apply elem_of_difference in Hc. tauto.
Qed.

Lemma mark_mine_cells_prunes cs st : prunes st (mark_mine_cells cs st).
Proof.
  intros s. rewrite mark_mine_cells_knowledge.
  intros (s0 & -> & Hs0)%list_elem_of_fmap. exists s0.
  split; [assumption|]. cbn. split.
  - intros c Hc. apply elem_of_difference in Hc. tauto.
  - unfold len. lia.
Qed.

Lemma list_remove_prunes x st : prunes st (list_remove x st).1.
Proof.
  destruct (list_remove_cases x st) as [(k & _ & ->)|[_ ->]];
    [|apply prunes_refl].
  intros s Hs%list_elem_of_delete_inv. by apply prunes_refl.
Qed.

Lemma resolve_step_prunes idx s st : prunes st (resolve_step idx s st).1.
Proof.
  unfold resolve_step. repeat case_decide.
  - apply list_remove_prunes.
  - eapply prunes_trans; [apply mark_safe_cells_prunes|apply list_remove_prunes].
  - eapply prunes_trans; [apply mark_mine_cells_prunes|apply list_remove_prunes].
  - apply prunes_refl.
Qed.

Lemma subset_step_prunes s1 s2 st : prunes st (subset_step_val s1 s2 st).1.
Proof.
  unfold subset_step_val. repeat case_decide; cbn [fst].
  - apply list_remove_prunes.
  - eapply prunes_trans; [apply mark_safe_cells_prunes|apply list_remove_prunes].
  - apply mark_mine_cells_prunes.
  - apply prunes_refl.
  - apply prunes_refl.
Qed.

Lemma consolidate_cells_prunes st : prunes st (consolidate_cells st).1.
Proof.
  rewrite consolidate_cells_by_value.
  apply (consolidate_cells_P (prunes st) (λ _, True)); [|done| |apply prunes_refl].
  - intros i s st' H _. eapply prunes_trans; [exact H|apply resolve_step_prunes].
  - intros _ s s2 st' H _ _.
    eapply prunes_trans; [exact H|apply subset_step_prunes].
Qed.

(** The state before [consolidate_cells] is called: the move is recorded,
    the cell is safe, the sets only grew, and at most one sentence was
    appended. *)
Lemma add_knowledge_direct_frame cell n st :
  height (add_knowledge_direct cell n st) = height st
  ∧ width (add_knowledge_direct cell n st) = width st
  ∧ moves_made (add_knowledge_direct cell n st) = {[cell]} ∪ moves_made st
  ∧ {[cell]} ∪ safes st ⊆ safes (add_knowledge_direct cell n st)
  ∧ mines st ⊆ mines (add_knowledge_direct cell n st)
  ∧ (length (knowledge (add_knowledge_direct cell n st))
     ≤ S (length (knowledge st)))%nat.
Proof.
  unfold add_knowledge_direct.
  set (st1 := mark_safe cell (add_move cell st)).
  generalize (surrounding_cells st1 cell). intros surrounding.
  assert (settles st1 (if decide (len surrounding = n)
                       then mark_mine_cells (elements surrounding) st1
                       else st1)) as H2
    by (case_decide; [apply mark_mine_cells_settles|apply settles_refl]).
  revert H2. generalize (if decide (len surrounding = n)
                         then mark_mine_cells (elements surrounding) st1
                         else st1). intros st2 H2.
  assert (settles st1 (if decide (n = 0)
                       then mark_safe_cells (elements surrounding) st2
                       else st2)) as H3.
  { eapply settles_trans; [exact H2|].
    case_decide; [apply mark_safe_cells_settles|apply settles_refl]. }
  revert H3. generalize (if decide (n = 0)
                         then mark_safe_cells (elements surrounding) st2
                         else st2). clear st2 H2. intros st3 H3.
  assert (∀ st4, settles st3 st4 →
    height st4 = height st ∧ width st4 = width st
    ∧ moves_made st4 = {[cell]} ∪ moves_made st
    ∧ {[cell]} ∪ safes st ⊆ safes st4 ∧ mines st ⊆ mines st4
    ∧ (length (knowledge st4) ≤ length (knowledge st))%nat) as Hfin.
  { intros st4 H4.
    destruct (settles_trans _ _ _ H3 H4) as (Hh & Hw & Hm & Hs & Hn & Hl).
    subst st1. cbn in *. rewrite length_fmap in Hl. done. }
  repeat case_decide.
  - destruct (Hfin (mark_mine_cells
                      (elements (undiscovered_surrounding_cells st3 surrounding))
                      st3) (mark_mine_cells_settles _ _)) as (?&?&?&?&?&?).
    repeat split; try assumption. lia.
  - destruct (Hfin _ (settles_refl st3)) as (?&?&?&?&?&?).
    cbn. rewrite length_app. cbn. repeat split; try assumption. lia.
  - destruct (Hfin _ (settles_refl st3)) as (?&?&?&?&?&?).
    repeat split; try assumption. lia.
Qed.

(** X2. Whatever the clue and the state, and also when the call raises,
    [add_knowledge(cell, count)] leaves [cell] in [moves_made] and in
    [safes]; [moves_made] gains exactly that cell; the size of the grid is
    untouched; and the list of sentences is at most one longer. *)
Theorem add_knowledge_records_move (cell : Cell) (n : Z) (st : MinesweeperAI) :
  moves_made (add_knowledge cell n st).1 = {[cell]} ∪ moves_made st
  ∧ cell ∈ safes (add_knowledge cell n st).1
  ∧ height (add_knowledge cell n st).1 = height st
  ∧ width (add_knowledge cell n st).1 = width st
  ∧ (length (knowledge (add_knowledge cell n st).1)
     ≤ S (length (knowledge st)))%nat.
Proof.
  rewrite add_knowledge_by_value. unfold add_knowledge_val.
  destruct (add_knowledge_direct_frame cell n st) as (Hh & Hw & Hm & Hs & _ & Hl).
  destruct (consolidate_cells_settles (add_knowledge_direct cell n st))
    as (Hh' & Hw' & Hm' & Hs' & _ & Hl').
  split; [congruence|]. split.
  { apply Hs', Hs, elem_of_union_l. by apply elem_of_singleton. }
  split; [congruence|]. split; [congruence|]. lia.
Qed.

Lemma add_knowledge_direct_clues cell n st :
  (n = 0 → surrounding_cells st cell ⊆ safes (add_knowledge_direct cell n st))
  ∧ (n = len (surrounding_cells st cell) →
     surrounding_cells st cell ⊆ mines (add_knowledge_direct cell n st)).
Proof.
  unfold add_knowledge_direct.
  rewrite (surrounding_cells_size st (mark_safe cell (add_move cell st)))
    by reflexivity.
  generalize (mark_safe cell (add_move cell st)). intros st1.
  set (surrounding := surrounding_cells st cell).
  set (st2 := if decide (len surrounding = n)
              then mark_mine_cells (elements surrounding) st1 else st1).
  set (st3 := if decide (n = 0)
              then mark_safe_cells (elements surrounding) st2 else st2).
  assert (∀ st4, settles st3 st4 →
            (n = 0 → surrounding ⊆ safes st4)
            ∧ (n = len surrounding → surrounding ⊆ mines st4)) as Hfin.
  { intros st4 (_ & _ & _ & Hs & Hn & _). split.
    - intros E. etrans; [|exact Hs]. subst st3. rewrite decide_True by done.
      destruct (mark_safe_cells_fields (elements surrounding) st2)
        as (_&_&_&_&->&_).
      rewrite list_to_set_elements_L. apply union_subseteq_l.
    - intros E. etrans; [|exact Hn].
      assert (surrounding ⊆ mines st2) as H2.
      { subst st2. rewrite decide_True by done.
        destruct (mark_mine_cells_fields (elements surrounding) st1)
          as (_&_&_&->&_&_).
        rewrite list_to_set_elements_L. apply union_subseteq_l. }
      etrans; [exact H2|]. subst st3.
      case_decide; [apply mark_safe_cells_settles|done]. }
  repeat case_decide.
  - apply Hfin, mark_mine_cells_settles.
  - destruct (Hfin _ (settles_refl st3)). by split.
  - apply Hfin, settles_refl.
Qed.

(** X3. A clue of 0 puts every in-bounds neighbour of the cell in [safes];
    a clue equal to the number of in-bounds neighbours puts every one of
    them in [mines]. *)
Theorem add_knowledge_decided_clues (cell : Cell) (st : MinesweeperAI) :
  surrounding_cells st cell ⊆ safes (add_knowledge cell 0 st).1
  ∧ surrounding_cells st cell
    ⊆ mines (add_knowledge cell (len (surrounding_cells st cell)) st).1.
Proof.
  rewrite !add_knowledge_by_value. unfold add_knowledge_val. split.
  - destruct (add_knowledge_direct_clues cell 0 st) as [H0 _].
    destruct (consolidate_cells_settles (add_knowledge_direct cell 0 st))
      as (_&_&_&Hs&_&_).
    etrans; [exact (H0 eq_refl)|exact Hs].
  - set (n := len (surrounding_cells st cell)).
    destruct (add_knowledge_direct_clues cell n st) as [_ Hn].
    destruct (consolidate_cells_settles (add_knowledge_direct cell n st))
      as (_&_&_&_&Hm&_).
    etrans; [exact (Hn eq_refl)|exact Hm].
Qed.

(** X4. [consolidate_cells] only simplifies: it leaves [moves_made] and the
    size of the grid as they are, the list of sentences does not get longer,
    and every sentence it leaves is a sentence it found, with some cells
    taken out and a count that did not go up.  This also holds for the state
    it leaves when it raises. *)
Theorem consolidate_cells_only_prunes (st : MinesweeperAI) :
  moves_made (consolidate_cells st).1 = moves_made st
  ∧ height (consolidate_cells st).1 = height st
  ∧ width (consolidate_cells st).1 = width st
  ∧ (length (knowledge (consolidate_cells st).1) ≤ length (knowledge st))%nat
  ∧ prunes st (consolidate_cells st).1.
Proof.
  split; [|split; [|split; [|split]]]; try apply consolidate_cells_prunes;
    rewrite consolidate_cells_by_value;
    destruct (consolidate_cells_settles st) as (?&?&?&_&_&?); assumption.
Qed.

(** ** Truth of what the engine knows *)

Lemma sound_check_sound g st : sound_check g st → sound g st.
Proof.
  intros (Hh & Hw & Hs & Hm & Hk). rewrite Forall_forall in Hk.
  split; try assumption.
  - intros s Hin. by apply Hk.
  - intros s c Hin Hc. destruct (Hk s Hin) as [_ Hf]. by apply Hf.
Qed.

(** X5. Rules A and B are sound.  If, on some board, every cell of [safes]
    is free of a mine, every cell of [mines] holds one, every stored
    sentence states the true number of mines among its cells and mentions no
    cell already settled, then the same holds of the state
    [consolidate_cells] leaves, whether it returns or raises. *)
Theorem consolidate_cells_keeps_sound (g : Minesweeper) (st : MinesweeperAI) :
  sound g st → sound g (consolidate_cells st).1.
Proof.
  intros H. rewrite consolidate_cells_by_value. by apply consolidate_cells_sound.
Qed.

(** X5 on [chain_kb], whose three sentences are true on [ends_board]. *)
Lemma consolidate_cells_keeps_sound_witness :
  sound ends_board chain_kb ∧ sound ends_board (consolidate_cells chain_kb).1.
Proof.
  assert (sound ends_board chain_kb) as H.
  { apply sound_check_sound. apply (bool_decide_unpack _).
    vm_compute. reflexivity. }
  split; [exact H|]. exact (consolidate_cells_keeps_sound ends_board chain_kb H).
Defined.

(** X6. What the engine holds after true clues is true of the board: in
    every reachable state each cell of [mines] is a mine of the board, no
    cell of [safes] is one, and the count of each stored sentence is the
    number of mines among its cells. *)
Theorem reachable_knowledge_is_true (g : Minesweeper) (st : MinesweeperAI) :
  reachable g st →
  (∀ c, c ∈ mines st → mined g c)
  ∧ (∀ c, c ∈ safes st → ¬ mined g c)
  ∧ (∀ s, s ∈ knowledge st → count s = mine_count g (cells s)).
Proof.
  intros H%reachable_sound. destruct H as [_ _ Hs Hm Ht _].
  split; [exact Hm|]. split; [exact Hs|exact Ht].
Qed.

(** X6 on [row_board_one], after the clues of (0,1), (0,3) and (0,0). *)
Lemma reachable_knowledge_is_true_witness :
  let st := (add_knowledge (0, 0) 0
               (add_knowledge (0, 3) 1
                  (add_knowledge (0, 1) 1 (init 1 5)).1).1).1 in
  reachable row_board_one st
  ∧ (∀ c, c ∈ mines st → mined row_board_one c)
  ∧ (∀ c, c ∈ safes st → ¬ mined row_board_one c)
  ∧ (∀ s, s ∈ knowledge st → count s = mine_count row_board_one (cells s)).
Proof.
  intros st.
  assert (reachable row_board_one st) as H.
  { apply (reachable_add row_board_one _ (0, 0) 0);
      [|vm_compute; reflexivity|vm_compute; reflexivity].
    apply (reachable_add row_board_one _ (0, 3) 1);
      [|vm_compute; reflexivity|vm_compute; reflexivity].
    apply (reachable_add row_board_one (init 1 5) (0, 1) 1);
      [|vm_compute; reflexivity|vm_compute; reflexivity].
    apply (reachable_init row_board_one). }
  split; [exact H|]. exact (reachable_knowledge_is_true row_board_one st H).
Defined.

(** X7. A safe move is safe.  In a reachable state the cell that
    [make_safe_move] hands back was not played before, and if it is a cell
    of the board then [is_mine] does not answer [True] for it. *)
Theorem safe_move_is_no_mine (g : Minesweeper) (pop : cellset → Cell)
    (st : MinesweeperAI) :
  reachable g st → pop_contract pop →
  ∀ c, (make_safe_move pop st).2 = Chosen c →
       (c ∉ moves_made st) ∧ (in_bounds g c → is_mine g c ≠ Some true).
Proof.
  intros Hst%reachable_sound Hpop c. unfold make_safe_move.
  case_decide as Hne; [|discriminate]. cbn. intros [= <-].
  assert (pop (safes st ∖ moves_made st) ∈ safes st ∖ moves_made st) as Hin.
  { apply Hpop. intros E. rewrite E in Hne. unfold len in Hne.
    rewrite size_empty in Hne. lia. }
  apply elem_of_difference in Hin as [Hs Hm]. split; [exact Hm|].
  intros Hb Hmine. eapply sound_safes; [exact Hst|exact Hs|]. by split.
Qed.

(** X7 on [corner_board], after the clue of the corner (2,2). *)
Lemma safe_move_is_no_mine_witness :
  let st := (add_knowledge (2, 2) 0 (init 3 3)).1 in
  reachable corner_board st ∧ pop_contract pop_first
  ∧ ∀ c, (make_safe_move pop_first st).2 = Chosen c →
         (c ∉ moves_made st)
         ∧ (in_bounds corner_board c → is_mine corner_board c ≠ Some true).
Proof.
  intros st.
  assert (reachable corner_board st) as H.
  { apply (reachable_add corner_board (init 3 3) (2, 2) 0);
      [|vm_compute; reflexivity|vm_compute; reflexivity].
    apply (reachable_init corner_board). }
  split; [exact H|]. split; [exact pop_first_contract|].
  exact (safe_move_is_no_mine corner_board pop_first st H pop_first_contract).
Defined.

(** ** The board's answers *)

Lemma size_list_to_set_le (l : list Cell) :
  (size (list_to_set (C:=gset Cell) l) ≤ length l)%nat.
Proof.
  induction l as [|x l IH]; cbn.
  - by rewrite size_empty.
  - rewrite size_union_alt, size_singleton.
    pose proof (subseteq_size (list_to_set (C:=gset Cell) l ∖ {[x]})
                  (list_to_set l)) as H.
    assert (list_to_set (C:=gset Cell) l ∖ {[x]} ⊆ list_to_set l) as Hsub.
    { intros c Hc. apply elem_of_difference in Hc. tauto. }
    specialize (H Hsub). lia.
Qed.

Lemma len_surrounding_cells_le st cell : len (surrounding_cells st cell) <= 8.
Proof.
  unfold len.
  assert (surrounding_cells st cell ⊆ list_to_set (neighbours8 cell)) as Hsub.
  { intros c Hc. apply elem_of_surrounding_cells in Hc as [Hc _].
    by apply elem_of_list_to_set. }
  apply subseteq_size in Hsub.
  pose proof (size_list_to_set_le (neighbours8 cell)) as Hle.
  assert (length (neighbours8 cell) = 8%nat) as Hl by by destruct cell.
  rewrite Hl in Hle. lia.
Qed.

Lemma py_index_in_range {A} (l : list A) (i : Z) :
  0 <= i < Z.of_nat (length l) → is_Some (py_index l i).
Proof.
  intros Hi. unfold py_index. rewrite decide_True by lia.
  apply lookup_lt_is_Some_2. lia.
Qed.

Lemma board_at_in_bounds g c :
  wf_board g → in_bounds g c → is_Some (board_at g c).
Proof.
  intros [Hlen Hrows] [Hi Hj]. unfold board_at.
  assert (0 <= c.1 < Z.of_nat (length (board g))) as Hi' by (rewrite Hlen; lia).
  destruct (py_index_in_range (board g) c.1 Hi') as [row Hrow].
  rewrite Hrow. cbn. apply py_index_in_range.
  assert (row ∈ board g) as Hin.
  { unfold py_index in Hrow. rewrite decide_True in Hrow by lia.
    by eapply list_elem_of_lookup_2. }
  rewrite Forall_forall in Hrows. rewrite (Hrows row Hin). lia.
Qed.

Lemma nearby_fold_answers g cell l :
  wf_board g → ∀ a, is_Some (foldl (nearby_step g cell) (Some a) l).
Proof.
  intros Hwf. induction l as [|ij l IH]; intros a; cbn [foldl]; [by eexists|].
  unfold nearby_step at 2. cbn [mbind option_bind].
  destruct (decide (ij = cell)); [apply IH|].
  destruct (decide (0 <= ij.1 < g_height g ∧ 0 <= ij.2 < g_width g))
    as [Hin|]; [|apply IH].
  destruct (board_at_in_bounds g ij Hwf Hin) as [b ->]. cbn. apply IH.
Qed.

(** X8. [nearby_mines] counts what the engine looks at: when it answers,
    its answer is the number of mines among the cells that
    [surrounding_cells] gives for an engine of the size of the board, and it
    lies between 0 and 8.  This holds for every cell, on or off the board. *)
Theorem nearby_mines_counts_neighbourhood (g : Minesweeper) (cell : Cell) (n : Z) :
  nearby_mines g cell = Some n →
  n = mine_count g (surrounding_cells (init (g_height g) (g_width g)) cell)
  ∧ 0 <= n <= 8.
Proof.
  intros Hn.
  pose proof (nearby_mines_count g (init (g_height g) (g_width g)) cell n
                eq_refl eq_refl Hn) as ->.
  split; [reflexivity|].
  pose proof (mine_count_bounds g
                (surrounding_cells (init (g_height g) (g_width g)) cell)).
  pose proof (len_surrounding_cells_le (init (g_height g) (g_width g)) cell).
  lia.
Qed.

(** X8 on [corner_board], for the cell (1,1) next to the mine. *)
Lemma nearby_mines_counts_neighbourhood_witness :
  nearby_mines corner_board (1, 1) = Some 1
  ∧ 1 = mine_count corner_board (surrounding_cells (init 3 3) (1, 1))
  ∧ 0 <= 1 <= 8.
Proof.
  assert (nearby_mines corner_board (1, 1) = Some 1) as H
    by (vm_compute; reflexivity).
  split; [exact H|].
  exact (nearby_mines_counts_neighbourhood corner_board (1, 1) 1 H).
Defined.

(** X9. On a board of the shape [Minesweeper.__init__] builds, the lookups
    of the board do not raise where the code allows them: [nearby_mines]
    answers for every cell, on or off the board, since it tests the bounds
    before it reads; [is_mine] answers for every cell of the board. *)
Theorem board_lookups_answer (g : Minesweeper) :
  wf_board g →
  (∀ cell, is_Some (nearby_mines g cell))
  ∧ (∀ cell, in_bounds g cell → is_Some (is_mine g cell)).
Proof.
  intros Hwf. split.
  - intros cell. by apply nearby_fold_answers.
  - intros cell. by apply board_at_in_bounds.
Qed.

(** X9 on [corner_board]. *)
Lemma board_lookups_answer_witness :
  wf_board corner_board
  ∧ (∀ cell, is_Some (nearby_mines corner_board cell))
  ∧ (∀ cell, in_bounds corner_board cell → is_Some (is_mine corner_board cell)).
Proof.
  assert (wf_board corner_board) as H
    by (apply (bool_decide_unpack _); vm_compute; reflexivity).
  split; [exact H|]. exact (board_lookups_answer corner_board H).
Defined.

Lemma py_index_wraps {A} (l : list A) (i : Z) :
  - Z.of_nat (length l) <= i < 0 →
  py_index l i = py_index l (Z.of_nat (length l) + i).
Proof.
  intros Hi. unfold py_index.
  rewrite (decide_False (P := 0 <= i)) by lia.
  rewrite decide_True by lia. by rewrite decide_True by lia.
Qed.

Lemma py_index_out {A} (l : list A) (i : Z) :
  Z.of_nat (length l) <= i ∨ i < - Z.of_nat (length l) → py_index l i = None.
Proof.
  intros Hi. unfold py_index. case_decide.
  - apply lookup_ge_None_2. lia.
  - rewrite decide_False by lia. reflexivity.
Qed.

(** X10. [is_mine] does not test the bounds.  On a board of [height] rows
    of [width] cells a negative row or column down to [-height] or [-width]
    is read from the other end of the board, as Python indexes lists, and
    anything further out raises [IndexError]. *)
Theorem is_mine_off_board (g : Minesweeper) (i j : Z) :
  wf_board g → 0 <= g_height g → 0 <= g_width g →
  (- g_height g <= i < 0 → is_mine g (i, j) = is_mine g (g_height g + i, j))
  ∧ (- g_width g <= j < 0 → is_mine g (i, j) = is_mine g (i, g_width g + j))
  ∧ (g_height g <= i ∨ i < - g_height g → is_mine g (i, j) = None)
  ∧ (g_width g <= j ∨ j < - g_width g → is_mine g (i, j) = None).
Proof.
  intros [Hlen Hrows] Hh Hw. unfold is_mine, board_at. cbn [fst snd].
  assert (∀ k row, py_index (board g) k = Some row →
                   Z.of_nat (length row) = g_width g) as Hrow.
  { intros k row Hk. rewrite Forall_forall in Hrows.
    rewrite (Hrows row); [lia|].
    unfold py_index in Hk. repeat case_decide; try discriminate;
      by eapply list_elem_of_lookup_2. }
  assert (Z.of_nat (length (board g)) = g_height g) as Hlen' by lia.
  split; [|split; [|split]].
  - intros Hi. rewrite py_index_wraps by lia. by rewrite Hlen'.
  - intros Hj. destruct (py_index (board g) i) as [row|] eqn:E; [|reflexivity].
    cbn. rewrite py_index_wraps by (rewrite (Hrow i row E); lia).
    by rewrite (Hrow i row E).
  - intros Hi. rewrite py_index_out by lia. reflexivity.
  - intros Hj. destruct (py_index (board g) i) as [row|] eqn:E; [|reflexivity].
    cbn. apply py_index_out. rewrite (Hrow i row E). lia.
Qed.

(** X10 on [corner_board] at row -1, the last row. *)
Lemma is_mine_off_board_witness :
  wf_board corner_board ∧ 0 <= g_height corner_board
  ∧ 0 <= g_width corner_board
  ∧ (- g_height corner_board <= -1 < 0 →
     is_mine corner_board (-1, 0)
     = is_mine corner_board (g_height corner_board + -1, 0))
  ∧ (- g_width corner_board <= 0 < 0 →
     is_mine corner_board (-1, 0)
     = is_mine corner_board (-1, g_width corner_board + 0))
  ∧ (g_height corner_board <= -1 ∨ -1 < - g_height corner_board →
     is_mine corner_board (-1, 0) = None)
  ∧ (g_width corner_board <= 0 ∨ 0 < - g_width corner_board →
     is_mine corner_board (-1, 0) = None).
Proof.
  assert (wf_board corner_board) as H
    by (apply (bool_decide_unpack _); vm_compute; reflexivity).
  assert (0 <= g_height corner_board) as Hh by (vm_compute; discriminate).
  assert (0 <= g_width corner_board) as Hw by (vm_compute; discriminate).
  split; [exact H|]. split; [exact Hh|]. split; [exact Hw|].
  exact (is_mine_off_board corner_board (-1) 0 H Hh Hw).
Defined.

(** ** Neighbours and undiscovered cells *)

Lemma NoDup_neighbours8 cell : NoDup (neighbours8 cell).
Proof.
  destruct cell as [row col]. cbn.
  repeat (apply NoDup_cons; split;
          [rewrite ?not_elem_of_cons; repeat split;
           try apply not_elem_of_nil; intros E; inversion E; lia|]).
  apply NoDup_nil_2.
Qed.

(** X11. [surrounding_cells] gives exactly the cells of the grid that touch
    the cell, the cell itself left out: never more than 8, all 8 for a cell
    inside the grid; and a cell of the grid is a neighbour of each of its
    neighbours. *)
Theorem surrounding_cells_spec (st : MinesweeperAI) (cell : Cell) :
  (∀ c, c ∈ surrounding_cells st cell ↔
        c ≠ cell
        ∧ cell.1 - 1 <= c.1 <= cell.1 + 1 ∧ cell.2 - 1 <= c.2 <= cell.2 + 1
        ∧ 0 <= c.1 < height st ∧ 0 <= c.2 < width st)
  ∧ len (surrounding_cells st cell) <= 8
  ∧ (0 < cell.1 < height st - 1 → 0 < cell.2 < width st - 1 →
     len (surrounding_cells st cell) = 8)
  ∧ (∀ c, 0 <= cell.1 < height st → 0 <= cell.2 < width st →
          c ∈ surrounding_cells st cell → cell ∈ surrounding_cells st c).
Proof.
  assert (∀ c c', c ∈ surrounding_cells st c' ↔
            c ≠ c'
            ∧ c'.1 - 1 <= c.1 <= c'.1 + 1 ∧ c'.2 - 1 <= c.2 <= c'.2 + 1
            ∧ 0 <= c.1 < height st ∧ 0 <= c.2 < width st) as Hspec.
  { intros c c'.
    rewrite elem_of_surrounding_cells, elem_of_neighbours8, elem_of_block3.
    tauto. }
  split; [intros c; apply Hspec|].
  split; [apply len_surrounding_cells_le|]. split.
  - intros Hr Hc. unfold len.
    assert (surrounding_cells st cell = list_to_set (neighbours8 cell)) as ->.
    { apply set_eq. intros c.
      rewrite elem_of_surrounding_cells, elem_of_list_to_set.
      split; [tauto|]. intros Hn. split; [assumption|].
      apply elem_of_neighbours8 in Hn as [Hb _].
      apply elem_of_block3 in Hb. lia. }
    rewrite size_list_to_set by apply NoDup_neighbours8.
    by destruct cell.
  - intros c Hr Hc Hin. apply Hspec in Hin. apply Hspec.
    destruct Hin as (Hne & ? & ? & ? & ?).
    split; [congruence|]. lia.
Qed.

(** X12. [get_undiscovered_cells] gives exactly the cells of the grid that
    are not in [moves_made]; on a grid without rows or without columns it
    gives the empty set. *)
Theorem get_undiscovered_cells_spec (st : MinesweeperAI) :
  (∀ c : Cell, c ∈ get_undiscovered_cells st ↔
        (0 <= c.1 < height st ∧ 0 <= c.2 < width st) ∧ c ∉ moves_made st)
  ∧ (height st <= 0 ∨ width st <= 0 → get_undiscovered_cells st = ∅).
Proof.
  assert (∀ c : Cell, c ∈ get_undiscovered_cells st ↔
            (0 <= c.1 < height st ∧ 0 <= c.2 < width st) ∧ c ∉ moves_made st)
    as Hspec.
  { intros c. by rewrite elem_of_get_undiscovered_cells, elem_of_grid_cells. }
  split; [exact Hspec|].
  intros Hdeg. apply set_eq. intros c. rewrite Hspec, elem_of_empty. lia.
Qed.

(** ** Exceptions of consolidate_cells *)

Lemma resolve_loop_returns fuel : ∀ idx st,
  (resolve_loop fuel idx st).2 = Returned.
Proof.
  induction fuel as [|fuel IH]; intros idx st; cbn; [reflexivity|].
  destruct (knowledge st !! idx) as [s|] eqn:E; [|reflexivity].
  pose proof (resolve_step_returns idx s st E) as Hr. unfold and_then.
  destruct (resolve_step idx s st) as [st' o]. cbn in *. subst o. apply IH.
Qed.

Lemma list_remove_benign x st :
  (list_remove x st).2 = Returned ∨ (list_remove x st).2 = Raised ValueError.
Proof.
  destruct (list_remove_cases x st) as [(k & _ & ->)|[_ ->]]; cbn; tauto.
Qed.

Lemma and_then_benign (r : effect) (k : MinesweeperAI → effect) :
  r.2 = Returned ∨ r.2 = Raised ValueError →
  (∀ st, (k st).2 = Returned ∨ (k st).2 = Raised ValueError) →
  (r >>> k).2 = Returned ∨ (r >>> k).2 = Raised ValueError.
Proof.
  intros Hr Hk. unfold and_then. destruct r as [st []]; cbn in *; auto.
Qed.

Lemma subset_step_benign s1 s2 st :
  (subset_step_val s1 s2 st).2 = Returned
  ∨ (subset_step_val s1 s2 st).2 = Raised ValueError.
Proof.
  unfold subset_step_val.
  repeat case_decide; try apply list_remove_benign; by left.
Qed.

Lemma inner_loop_benign fuel idx1 s1 : ∀ idx2 st,
  (inner_loop_val fuel idx1 s1 idx2 st).2 = Returned
  ∨ (inner_loop_val fuel idx1 s1 idx2 st).2 = Raised ValueError.
Proof.
  induction fuel as [|fuel IH]; intros idx2 st; cbn; [by left|].
  destruct (knowledge st !! idx2) as [s2|]; [|by left].
  apply and_then_benign; [|apply IH].
  case_decide; [apply subset_step_benign|by left].
Qed.

Lemma outer_loop_benign fuel : ∀ idx1 st,
  (outer_loop_val fuel idx1 st).2 = Returned
  ∨ (outer_loop_val fuel idx1 st).2 = Raised ValueError.
Proof.
  induction fuel as [|fuel IH]; intros idx1 st; cbn; [by left|].
  destruct (knowledge st !! idx1) as [s1|]; [|by left].
  apply and_then_benign; [apply inner_loop_benign|apply IH].
Qed.

Lemma consolidate_cells_benign st :
  (consolidate_cells st).2 = Returned
  ∨ (consolidate_cells st).2 = Raised ValueError.
Proof.
  rewrite consolidate_cells_by_value. unfold consolidate_cells_val.
  apply and_then_benign; [left; apply resolve_loop_returns|].
  intros st'. apply outer_loop_benign.
Qed.

(** X13. The only exception [consolidate_cells], and so [add_knowledge],
    can raise is the [ValueError] of [list.remove].  Its first loop never
    raises: the sentence it removes is in the list.  The second loop can
    raise: on [clash_kb] the first sentence is removed when it meets the
    second, and is asked to be removed again when it meets the fourth, where
    no sentence equal to it is left. *)
Theorem consolidate_cells_exceptions :
  (∀ st, (resolve_loop (length (knowledge st)) 0 st).2 = Returned)
  ∧ (∀ st, (consolidate_cells st).2 = Returned
           ∨ (consolidate_cells st).2 = Raised ValueError)
  ∧ (∀ cell n st, (add_knowledge cell n st).2 = Returned
                  ∨ (add_knowledge cell n st).2 = Raised ValueError)
  ∧ (consolidate_cells clash_kb).2 = Raised ValueError.
Proof.
  split; [intros st; apply resolve_loop_returns|].
  split; [apply consolidate_cells_benign|].
  split; [intros cell n st; apply consolidate_cells_benign|].
  vm_compute. reflexivity.
Qed.

(** ** Marks of different cells *)

(** X14. Marks of two different cells can be made in either order: marking
    [a] safe and [b] a mine gives the same state both ways. *)
Theorem mark_safe_mark_mine_comm (a b : Cell) (st : MinesweeperAI) :
  a ≠ b → mark_safe a (mark_mine b st) = mark_mine b (mark_safe a st).
Proof.
  intros Hab. unfold mark_safe, mark_mine; cbn. f_equal.
  rewrite <- !list_fmap_compose. apply list_fmap_ext. intros _ s _. cbn.
  rewrite !Sentence_mark_safe_without, !Sentence_mark_mine_without.
  unfold without_safes, without_mines; cbn. f_equal.
  - apply set_eq. intros c. rewrite !elem_of_difference. tauto.
  - f_equal. f_equal. apply set_eq. intros c.
    rewrite !elem_of_intersection, elem_of_difference, !elem_of_singleton.
    split; [|tauto]. intros [Hc ->]. split; [|reflexivity].
    split; [assumption|]. congruence.
Qed.

(** X14 on a sentence that holds both cells. *)
Lemma mark_safe_mark_mine_comm_witness :
  ((0, 0) : Cell) ≠ (0, 1)
  ∧ mark_safe (0, 0) (mark_mine (0, 1) chain_kb)
    = mark_mine (0, 1) (mark_safe (0, 0) chain_kb).
Proof.
  assert (((0, 0) : Cell) ≠ (0, 1)) as H by discriminate.
  split; [exact H|]. exact (mark_safe_mark_mine_comm (0, 0) (0, 1) chain_kb H).
Defined.

(** ** consolidate_cells on one and on two sentences *)

Lemma without_safes_own (s : Sentence) :
  without_safes (cells s) s = mkSentence ∅ (count s).
Proof.
  unfold without_safes. f_equal. apply set_eq. intros c.
  rewrite elem_of_difference, elem_of_empty. tauto.
Qed.

Lemma without_mines_own (s : Sentence) :
  without_mines (cells s) s = mkSentence ∅ (count s - len (cells s)).
Proof.
  unfold without_mines. f_equal.
  - apply set_eq. intros c. rewrite elem_of_difference, elem_of_empty. tauto.
  - do 2 f_equal. apply set_eq. intros c. rewrite elem_of_intersection. tauto.
Qed.

Lemma list_remove_head x l st :
  knowledge st = x :: l → list_remove x st = (set_knowledge l st, Returned).
Proof. intros E. unfold list_remove. rewrite E. cbn. by rewrite decide_True. Qed.

(** X15. Rule A on a knowledge base that holds one sentence.  An empty
    sentence is dropped; a sentence with count 0 is dropped and its cells
    join [safes]; a sentence with as many mines as cells is dropped and its
    cells join [mines]; any other sentence stays, and nothing changes. *)
Theorem consolidate_cells_single (s : Sentence) (st : MinesweeperAI) :
  consolidate_cells (set_knowledge [s] st)
  = if decide (len (cells s) = 0) then (set_knowledge [] st, Returned)
    else if decide (count s = 0) then
      ({| height := height st; width := width st; moves_made := moves_made st;
          mines := mines st; safes := cells s ∪ safes st; knowledge := [] |},
       Returned)
    else if decide (count s = len (cells s)) then
      ({| height := height st; width := width st; moves_made := moves_made st;
          mines := cells s ∪ mines st; safes := safes st; knowledge := [] |},
       Returned)
    else (set_knowledge [s] st, Returned).
Proof.
  rewrite consolidate_cells_by_value. unfold consolidate_cells_val.
  cbn [knowledge set_knowledge length resolve_loop lookup list_lookup].
  unfold resolve_step.
  destruct (decide (len (cells s) = 0)) as [H0|H0].
  { rewrite (list_remove_head s []) by reflexivity. reflexivity. }
  destruct (decide (count s = 0)) as [Hc|Hc].
  { cbn zeta. rewrite mark_safe_elements. unfold deref.
    cbn [fst snd knowledge set_knowledge fmap list_fmap lookup list_lookup
         default from_option].
    rewrite without_safes_own. unfold id.
    rewrite (list_remove_head _ []) by reflexivity. reflexivity. }
  destruct (decide (count s = len (cells s))) as [Hl|Hl].
  { cbn zeta. rewrite mark_mine_elements. unfold deref.
    cbn [fst snd knowledge set_knowledge fmap list_fmap lookup list_lookup
         default from_option].
    rewrite without_mines_own. unfold id.
    rewrite (list_remove_head _ []) by reflexivity. reflexivity. }
  unfold and_then. cbn. by rewrite decide_False by (intros [H|H]; [by apply H|lia]).
Qed.

Lemma without_safes_disjoint (X : gset Cell) (s : Sentence) :
  cells s ## X → without_safes X s = s.
Proof.
  intros Hd%elem_of_disjoint. destruct s as [cs n].
  unfold without_safes; cbn in *. f_equal.
  apply set_eq. intros c. rewrite elem_of_difference. split; [tauto|].
  intros Hc. split; [assumption|]. intros Hx. by apply (Hd c).
Qed.

Lemma without_mines_disjoint (X : gset Cell) (s : Sentence) :
  cells s ## X → without_mines X s = s.
Proof.
  intros Hd%elem_of_disjoint. destruct s as [cs n].
  unfold without_mines, len; cbn in *.
  assert (cs ∩ X = ∅) as ->.
  { apply set_eq. intros c. rewrite elem_of_intersection, elem_of_empty.
    split; [|tauto]. intros [Hc Hx]. by apply (Hd c). }
  rewrite size_empty. f_equal; [|lia].
  apply set_eq. intros c. rewrite elem_of_difference. split; [tauto|].
  intros Hc. split; [assumption|]. intros Hx. by apply (Hd c).
Qed.

Lemma difference_difference_subseteq (X Y : gset Cell) :
  X ⊆ Y → Y ∖ (Y ∖ X) = X.
Proof.
  intros Hsub. apply set_eq. intros c. rewrite !elem_of_difference.
  specialize (Hsub c). destruct (decide (c ∈ X)); tauto.
Qed.

Lemma and_then_returned st (k : MinesweeperAI → effect) :
  (st, Returned) >>> k = k st.
Proof. reflexivity. Qed.

Lemma outer_loop_pair s1 s2 st0 :
  knowledge st0 = [s1; s2] →
  outer_loop_val 2 0 st0
  = subset_step_val s1 s2 st0 >>> (λ st1, outer_loop_val 1 1 st1).
Proof.
  intros E. cbn [outer_loop_val]. rewrite E. cbn [lookup list_lookup length].
  cbn [inner_loop_val]. rewrite E. cbn [lookup list_lookup].
  rewrite decide_False by (intros [H|H]; [by apply H|lia]).
  rewrite and_then_returned, E. cbn [lookup list_lookup].
  rewrite decide_True by (left; discriminate).
  unfold and_then. by destruct (subset_step_val s1 s2 st0) as [st1 []].
Qed.

Lemma outer_loop_second a b st0 :
  knowledge st0 = [a; b] →
  outer_loop_val 1 1 st0 = subset_step_val b a st0.
Proof.
  intros E. cbn [outer_loop_val]. rewrite E. cbn [lookup list_lookup length].
  cbn [inner_loop_val]. rewrite E. cbn [lookup list_lookup].
  rewrite decide_True by (left; discriminate).
  unfold and_then. destruct (subset_step_val b a st0) as [st1 []] eqn:Es;
    cbn [fst snd]; [|reflexivity].
  destruct (knowledge st1 !! 1%nat); [|reflexivity].
  rewrite decide_False by (intros [H|H]; [by apply H|lia]). reflexivity.
Qed.

Lemma outer_loop_alone a st0 :
  knowledge st0 = [a] → outer_loop_val 1 1 st0 = (st0, Returned).
Proof. intros E. cbn [outer_loop_val]. by rewrite E. Qed.

(** X16. Rule B on a knowledge base that holds two unresolved sentences,
    the cells of the first strictly among those of the second.  With equal
    counts the extra cells join [safes]; with counts that differ by the
    number of extra cells these join [mines]; in both cases one sentence is
    left, the smaller one.  Otherwise nothing changes. *)
Theorem consolidate_cells_subset_pair (s1 s2 : Sentence) (st : MinesweeperAI) :
  ¬ rule_A_enabled s1 → ¬ rule_A_enabled s2 →
  cells s1 ⊆ cells s2 → cells s1 ≠ cells s2 →
  (count s1 = count s2 →
   consolidate_cells (set_knowledge [s1; s2] st)
   = ({| height := height st; width := width st; moves_made := moves_made st;
         mines := mines st; safes := (cells s2 ∖ cells s1) ∪ safes st;
         knowledge := [s1] |}, Returned))
  ∧ (count s1 ≠ count s2 →
     len (cells s2 ∖ cells s1) = count s2 - count s1 →
     consolidate_cells (set_knowledge [s1; s2] st)
     = ({| height := height st; width := width st; moves_made := moves_made st;
           mines := (cells s2 ∖ cells s1) ∪ mines st; safes := safes st;
           knowledge := [s1] |}, Returned))
  ∧ (count s1 ≠ count s2 →
     len (cells s2 ∖ cells s1) ≠ count s2 - count s1 →
     consolidate_cells (set_knowledge [s1; s2] st)
     = (set_knowledge [s1; s2] st, Returned)).
Proof.
  intros HA1 HA2 Hsub Hne.
  set (X := cells s2 ∖ cells s1).
  assert (cells s1 ## X) as Hd.
  { apply elem_of_disjoint. intros c Hc Hx.
    apply elem_of_difference in Hx. tauto. }
  assert (¬ cells s2 ⊆ cells s1) as Hns.
  { intros H. apply Hne. apply set_eq. intros c. split; [apply Hsub|apply H]. }
  assert (len X > 0) as Hpos.
  { unfold len. assert (size X ≠ 0%nat); [|lia].
    intros H0%size_empty_iff. apply Hns. intros c Hc.
    destruct (decide (c ∈ cells s1)) as [|Hn]; [assumption|].
    exfalso. apply (not_elem_of_empty (C:=gset Cell) c). rewrite <- H0.
    apply elem_of_difference. tauto. }
  assert (consolidate_cells (set_knowledge [s1; s2] st)
          = subset_step_val s1 s2 (set_knowledge [s1; s2] st)
            >>> (λ st1, outer_loop_val 1 1 st1)) as ->.
  { rewrite consolidate_cells_by_value. unfold consolidate_cells_val.
    cbn [knowledge set_knowledge length].
    rewrite resolve_loop_quiet by (cbn; by repeat constructor).
    unfold and_then at 1. cbn [fst snd knowledge set_knowledge length].
    by apply outer_loop_pair. }
  unfold subset_step_val at 1 2 3.
  rewrite (decide_True (P := cells s1 ⊆ cells s2)) by assumption.
  rewrite (decide_False (P := cells s1 = cells s2)) by assumption.
  fold X. split; [|split].
  - intros Hc. rewrite decide_True by assumption. cbn zeta.
    rewrite mark_safe_elements.
    cbn [knowledge set_knowledge fmap list_fmap height width moves_made
         mines safes].
    rewrite (without_safes_disjoint X s1) by assumption.
    assert (without_safes X s2 = s1) as ->.
    { unfold without_safes, X. rewrite difference_difference_subseteq
        by assumption. rewrite <- Hc. by destruct s1. }
    rewrite (list_remove_head s1 [s1]) by reflexivity.
    unfold and_then. cbn [fst snd]. by rewrite (outer_loop_alone s1).
  - intros Hc Hl. rewrite decide_False by assumption.
    rewrite decide_True by (split; assumption). cbn zeta.
    rewrite mark_mine_elements.
    cbn [knowledge set_knowledge fmap list_fmap height width moves_made
         mines safes].
    rewrite (without_mines_disjoint X s1) by assumption.
    assert (without_mines X s2 = s1) as ->.
    { unfold without_mines. fold X.
      assert (cells s2 ∩ X = X) as ->.
      { apply set_eq. intros c. unfold X.
        rewrite elem_of_intersection, elem_of_difference. tauto. }
      unfold X at 1. rewrite difference_difference_subseteq by assumption.
      rewrite Hl. replace (count s2 - (count s2 - count s1)) with (count s1)
        by lia. by destruct s1. }
    unfold and_then. cbn [fst snd].
    rewrite (outer_loop_second s1 s1) by reflexivity.
    unfold subset_step_val. rewrite decide_True by done.
    rewrite decide_True by done.
    by rewrite (list_remove_head s1 [s1]) by reflexivity.
  - intros Hc Hl. rewrite decide_False by assumption.
    rewrite decide_False by tauto.
    unfold and_then. cbn [fst snd].
    rewrite (outer_loop_second s1 s2) by reflexivity.
    unfold subset_step_val. by rewrite decide_False by assumption.
Qed.

(** X16 on the first two sentences of [chain_kb]. *)
Lemma consolidate_cells_subset_pair_witness :
  let s1 := mkSentence {[ (0, 0); (0, 1) ]} 1 in
  let s2 := mkSentence {[ (0, 0); (0, 1); (0, 2) ]} 1 in
  ¬ rule_A_enabled s1 ∧ ¬ rule_A_enabled s2
  ∧ cells s1 ⊆ cells s2 ∧ cells s1 ≠ cells s2 ∧ count s1 = count s2
  ∧ consolidate_cells (set_knowledge [s1; s2] (init 1 4))
    = ({| height := 1; width := 4; moves_made := ∅; mines := ∅;
          safes := (cells s2 ∖ cells s1) ∪ ∅; knowledge := [s1] |}, Returned).
Proof.
  intros s1 s2.
  assert (¬ rule_A_enabled s1) as H1
    by (apply (bool_decide_unpack _); vm_compute; reflexivity).
  assert (¬ rule_A_enabled s2) as H2
    by (apply (bool_decide_unpack _); vm_compute; reflexivity).
  assert (cells s1 ⊆ cells s2) as H3
    by (apply (bool_decide_unpack _); vm_compute; reflexivity).
  assert (cells s1 ≠ cells s2) as H4
    by (apply (bool_decide_unpack _); vm_compute; reflexivity).
  assert (count s1 = count s2) as H5 by reflexivity.
  split; [exact H1|]. split; [exact H2|]. split; [exact H3|].
  split; [exact H4|]. split; [exact H5|].
  exact (proj1 (consolidate_cells_subset_pair s1 s2 (init 1 4) H1 H2 H3 H4) H5).
Defined.

(** ** The board that the constructor builds *)

Lemma py_index_nonneg {A} (l : list A) (i : Z) :
  0 <= i → py_index l i = l !! Z.to_nat i.
Proof. intros Hi. unfold py_index. by rewrite decide_True. Qed.

Lemma board_at_nonneg g (c : Cell) :
  0 <= c.1 → 0 <= c.2 →
  board_at g c = row ← board g !! Z.to_nat c.1; row !! Z.to_nat c.2.
Proof.
  intros H1 H2. unfold board_at. rewrite py_index_nonneg by assumption.
  destruct (board g !! Z.to_nat c.1) as [row|]; [|reflexivity].
  cbn. by rewrite py_index_nonneg.
Qed.

(** Setting a cell of the board: the shape is kept, the cell reads [x], the
    other cells read what they read before. *)
Lemma board_set_spec g (ij : Cell) x :
  wf_board g → in_bounds g ij →
  ∃ g', board_set g ij x = Some g'
        ∧ g_height g' = g_height g ∧ g_width g' = g_width g ∧ wf_board g'
        ∧ ∀ c, in_bounds g c →
               board_at g' c = if decide (c = ij) then Some x else board_at g c.
Proof.
  intros [Hlen Hrows] [Hi Hj]. unfold board_set.
  rewrite py_index_nonneg by lia.
  destruct (lookup_lt_is_Some_2 (board g) (Z.to_nat ij.1) ltac:(lia))
    as [row Hrow].
  rewrite Hrow. cbn.
  assert (length row = Z.to_nat (g_width g)) as Hrl.
  { rewrite Forall_forall in Hrows. apply Hrows.
    by eapply list_elem_of_lookup_2. }
  unfold py_set. rewrite !decide_True by lia. cbn.
  rewrite !decide_True by lia. cbn.
  eexists. split; [reflexivity|]. cbn.
  split; [reflexivity|]. split; [reflexivity|]. split.
  - split; cbn; [by rewrite length_insert|].
    apply Forall_insert; [assumption|]. by rewrite length_insert.
  - intros c [Hc1 Hc2]. rewrite !board_at_nonneg by lia. cbn.
    destruct (decide (Z.to_nat c.1 = Z.to_nat ij.1)) as [E1|N1].
    + rewrite E1, list_lookup_insert_eq by lia. cbn. rewrite Hrow. cbn.
      destruct (decide (Z.to_nat c.2 = Z.to_nat ij.2)) as [E2|N2].
      * rewrite E2, list_lookup_insert_eq by lia.
        rewrite decide_True; [reflexivity|].
        destruct c, ij; cbn in *. f_equal; lia.
      * rewrite list_lookup_insert_ne by done.
        rewrite decide_False; [reflexivity|].
        intros ->. contradiction.
    + rewrite list_lookup_insert_ne by done.
      rewrite decide_False; [reflexivity|]. intros ->. contradiction.
Qed.

Lemma empty_board_wf h w : wf_board (mkGame h w (empty_board h w)).
Proof.
  split; cbn; unfold empty_board.
  - by rewrite length_replicate.
  - apply Forall_replicate. by rewrite length_replicate.
Qed.

Lemma empty_board_no_mine h w c : ¬ mined (mkGame h w (empty_board h w)) c.
Proof.
  intros [[Hi Hj] Hm]. cbn in *. rewrite board_at_nonneg in Hm by lia.
  cbn in Hm. unfold empty_board in Hm.
  rewrite lookup_replicate_2 in Hm by lia. cbn in Hm.
  rewrite lookup_replicate_2 in Hm by lia. discriminate.
Qed.

(** The loop keeps the board in shape and [self.mines] equal to the set of
    the cells that read [True]. *)
Lemma place_mines_invariant target draws : ∀ g ms G,
  wf_board g → (∀ c, c ∈ ms ↔ mined g c) →
  draws_in_range (g_height g) (g_width g) draws →
  place_mines target draws g ms = Built G →
  wf_board (field G)
  ∧ g_height (field G) = g_height g ∧ g_width (field G) = g_width g
  ∧ (∀ c, c ∈ placed G ↔ mined (field G) c)
  ∧ len (placed G) = target ∧ mines_found G = ∅.
Proof.
  induction draws as [|ij rest IH]; intros g ms G Hwf Hms Hr; cbn.
  - repeat case_decide; try discriminate. intros [= <-]. cbn.
    assert (len ms = target) by (destruct (decide (len ms = target)); tauto).
    done.
  - case_decide as Hlen.
    2:{ intros [= <-]. cbn.
        assert (len ms = target) by (destruct (decide (len ms = target)); tauto).
        done. }
    case_decide; [discriminate|].
    apply Forall_cons in Hr as [Hij Hr].
    destruct (board_at g ij) as [[]|] eqn:Hb; [| |discriminate].
    + by apply IH.
    + destruct (board_set_spec g ij true Hwf Hij)
        as (g' & -> & Hh & Hw & Hwf' & Hat).
      intros HG. apply IH in HG; [|assumption| |by rewrite Hh, Hw].
      * rewrite Hh, Hw in HG. exact HG.
      * intros c. rewrite elem_of_union, elem_of_singleton, Hms.
        unfold mined, in_bounds. rewrite Hh, Hw. split.
        -- intros [->|[Hc Hm]].
           ++ split; [assumption|]. rewrite Hat by assumption.
              by rewrite decide_True.
           ++ split; [assumption|]. rewrite Hat by assumption.
              case_decide; [reflexivity|assumption].
        -- intros [Hc Hm]. rewrite Hat in Hm by assumption.
           case_decide; [by left|by right].
Qed.

Lemma length_grid_row (i : Z) (cols : list Z) :
  length (j ← cols; [(i, j)]) = length cols.
Proof.
  induction cols as [|j cols IH]; [reflexivity|].
  rewrite bind_cons, length_app, IH. reflexivity.
Qed.

Lemma length_grid_list (rows cols : list Z) :
  length (i ← rows; j ← cols; [(i, j)]) = (length rows * length cols)%nat.
Proof.
  induction rows as [|i rows IH]; [reflexivity|].
  rewrite bind_cons, length_app, IH, length_grid_row. reflexivity.
Qed.

(** A set of cells of the grid has at most [height * width] elements. *)
Lemma len_on_board_le (g : Minesweeper) (ms : gset Cell) :
  (∀ c, c ∈ ms → in_bounds g c) →
  len ms <= Z.of_nat (Z.to_nat (g_height g) * Z.to_nat (g_width g)).
Proof.
  intros Hin. unfold len. apply inj_le.
  set (l := i ← seqZ 0 (g_height g); j ← seqZ 0 (g_width g); [(i, j)]).
  assert (ms ⊆ list_to_set l) as Hsub.
  { intros c Hc. apply elem_of_list_to_set.
    destruct (Hin c Hc) as [H1 H2]. unfold l.
    apply list_elem_of_bind. exists c.1. split; [|apply elem_of_seqZ; lia].
    apply list_elem_of_bind. exists c.2. split; [|apply elem_of_seqZ; lia].
    apply list_elem_of_singleton. by destruct c. }
  apply subseteq_size in Hsub.
  pose proof (size_list_to_set_le l) as Hle.
  unfold l in Hle at 2. rewrite length_grid_list, !length_seqZ in Hle.
  exact (Nat.le_trans _ _ _ Hsub Hle).
Qed.

(** X18. What [Minesweeper.__init__] builds.  With draws that
    [random.randrange] can give, a constructor that returns has made a board
    of [height] rows of [width] cells on which exactly [mines] cells read
    [True]; [self.mines] is the set of these cells and [self.mines_found] is
    empty, so that [won()] answers [True] only for a board without mines.
    It can return only when [0 <= mines <= height * width]. *)
Theorem Minesweeper_init_spec (height width mines : Z) (draws : list Cell)
    (G : Game) :
  draws_in_range height width draws →
  Minesweeper_init height width mines draws = Built G →
  wf_board (field G)
  ∧ g_height (field G) = height ∧ g_width (field G) = width
  ∧ (∀ c, c ∈ placed G ↔ mined (field G) c)
  ∧ len (placed G) = mines
  ∧ mines_found G = ∅
  ∧ (won G = true ↔ mines = 0)
  ∧ 0 <= mines <= Z.of_nat (Z.to_nat height * Z.to_nat width).
Proof.
  intros Hr HG. unfold Minesweeper_init in HG.
  apply place_mines_invariant in HG as (Hwf & Hh & Hw & Hms & Hlen & Hf);
    [|apply empty_board_wf| |exact Hr].
  2:{ intros c. split; [intros H; by apply not_elem_of_empty in H|].
      intros H. by apply empty_board_no_mine in H. }
  cbn in Hh, Hw.
  split; [assumption|]. split; [assumption|]. split; [assumption|].
  split; [assumption|]. split; [assumption|]. split; [assumption|]. split.
  - unfold won. rewrite Hf, bool_decide_eq_true. split.
    + intros E. rewrite <- Hlen, <- E. unfold len. by rewrite size_empty.
    + intros E. symmetry. apply leibniz_equiv, size_empty_iff.
      unfold len in Hlen. lia.
  - rewrite <- Hlen, <- Hh, <- Hw. split; [unfold len; lia|].
    apply len_on_board_le. intros c Hc. by apply Hms in Hc as [Hc _].
Qed.

(** X18 on a 2 x 2 board with two mines, one draw hitting a mine again. *)
Lemma Minesweeper_init_spec_witness :
  let draws := [(0, 0); (0, 0); (1, 1)] in
  let G := {| field := mkGame 2 2 [[true; false]; [false; true]];
              placed := {[ (0, 0); (1, 1) ]}; mines_found := ∅ |} in
  draws_in_range 2 2 draws
  ∧ Minesweeper_init 2 2 2 draws = Built G
  ∧ wf_board (field G)
  ∧ g_height (field G) = 2 ∧ g_width (field G) = 2
  ∧ (∀ c, c ∈ placed G ↔ mined (field G) c)
  ∧ len (placed G) = 2
  ∧ mines_found G = ∅
  ∧ (won G = true ↔ 2 = 0)
  ∧ 0 <= 2 <= Z.of_nat (Z.to_nat 2 * Z.to_nat 2).
Proof.
  intros draws G.
  assert (draws_in_range 2 2 draws) as H1
    by (apply (bool_decide_unpack _); vm_compute; reflexivity).
  assert (Minesweeper_init 2 2 2 draws = Built G) as H2.
  { vm_compute. reflexivity. }
  split; [exact H1|]. split; [exact H2|].
  exact (Minesweeper_init_spec 2 2 2 draws G H1 H2).
Defined.

Lemma place_mines_distinct target draws : ∀ g ms,
  wf_board g → (∀ c, c ∈ ms ↔ mined g c) →
  draws_in_range (g_height g) (g_width g) draws →
  NoDup draws → (∀ d, d ∈ draws → d ∉ ms) →
  len ms + Z.of_nat (length draws) = target →
  ∃ G, place_mines target draws g ms = Built G
       ∧ placed G = list_to_set draws ∪ ms.
Proof.
  induction draws as [|ij rest IH]; intros g ms Hwf Hms Hr Hnd Hfresh Hlen; cbn.
  - rewrite decide_False by (cbn in Hlen; lia).
    eexists. split; [reflexivity|]. cbn. by rewrite (left_id_L ∅ (∪)).
  - rewrite decide_True by (cbn in Hlen; unfold len in *; lia).
    apply Forall_cons in Hr as [Hij Hr]. apply NoDup_cons in Hnd as [Hni Hnd].
    rewrite decide_False by (destruct Hij; lia).
    destruct (board_at_in_bounds g ij Hwf Hij) as [b Hb]. rewrite Hb.
    destruct b.
    { exfalso. apply (Hfresh ij); [by left|]. apply Hms. by split. }
    destruct (board_set_spec g ij true Hwf Hij)
      as (g' & -> & Hh & Hw & Hwf' & Hat).
    destruct (IH g' ({[ij]} ∪ ms)) as (G & HG & Hp).
    + assumption.
    + intros c. rewrite elem_of_union, elem_of_singleton, Hms.
      unfold mined, in_bounds. rewrite Hh, Hw. split.
      * intros [->|[Hc Hm]].
        -- split; [assumption|]. rewrite Hat by assumption.
           by rewrite decide_True.
        -- split; [assumption|]. rewrite Hat by assumption.
           case_decide; [reflexivity|assumption].
      * intros [Hc Hm]. rewrite Hat in Hm by assumption.
        case_decide; [by left|by right].
    + by rewrite Hh, Hw.
    + assumption.
    + intros d Hd. rewrite elem_of_union, elem_of_singleton.
      intros [->|Hd']; [contradiction|]. apply (Hfresh d); [by right|assumption].
    + unfold len in *. rewrite size_union, size_singleton.
      * cbn in Hlen. lia.
      * apply elem_of_disjoint. intros c ->%elem_of_singleton Hc.
        apply (Hfresh ij); [by left|assumption].
    + exists G. split; [assumption|]. rewrite Hp. cbn.
      apply set_eq. intros c. rewrite !elem_of_union. tauto.
Qed.

(** X19. The constructor returns as soon as the draws have hit [mines]
    different cells: with [mines] draws in range, all different, it places
    a mine at each of them and returns. *)
Theorem Minesweeper_init_returns (height width mines : Z) (draws : list Cell) :
  draws_in_range height width draws → NoDup draws →
  Z.of_nat (length draws) = mines →
  ∃ G, Minesweeper_init height width mines draws = Built G
       ∧ placed G = list_to_set draws.
Proof.
  intros Hr Hnd Hlen. unfold Minesweeper_init.
  destruct (place_mines_distinct mines draws
              (mkGame height width (empty_board height width)) ∅)
    as (G & HG & Hp).
  - apply empty_board_wf.
  - intros c. split; [intros H; by apply not_elem_of_empty in H|].
    intros H. by apply empty_board_no_mine in H.
  - exact Hr.
  - exact Hnd.
  - intros d _. apply not_elem_of_empty.
  - unfold len. rewrite size_empty. lia.
  - exists G. split; [assumption|]. rewrite Hp. by rewrite (right_id_L ∅ (∪)).
Qed.

(** X19 on a 2 x 2 board with the draws (0,1) and (1,0). *)
Lemma Minesweeper_init_returns_witness :
  let draws := [(0, 1); (1, 0)] in
  draws_in_range 2 2 draws ∧ NoDup draws ∧ Z.of_nat (length draws) = 2
  ∧ ∃ G, Minesweeper_init 2 2 2 draws = Built G
         ∧ placed G = list_to_set draws.
Proof.
  intros draws.
  assert (draws_in_range 2 2 draws) as H1
    by (apply (bool_decide_unpack _); vm_compute; reflexivity).
  assert (NoDup draws) as H2
    by (apply (bool_decide_unpack _); vm_compute; reflexivity).
  assert (Z.of_nat (length draws) = 2) as H3 by reflexivity.
  split; [exact H1|]. split; [exact H2|]. split; [exact H3|].
  exact (Minesweeper_init_returns 2 2 2 draws H1 H2 H3).
Defined.

(** X20. The edges of the constructor.  With [mines = 0] it draws nothing
    and returns the board of [False] cells, whatever its size.  With
    [mines] other than 0 on a board without rows or without columns the
    first [randrange] raises [ValueError]. *)
Theorem Minesweeper_init_edges (height width mines : Z) (draws : list Cell) :
  Minesweeper_init height width 0 draws
  = Built {| field := mkGame height width (empty_board height width);
             placed := ∅; mines_found := ∅ |}
  ∧ (mines ≠ 0 → height <= 0 ∨ width <= 0 →
     Minesweeper_init height width mines draws = BuildRaised ValueError).
Proof.
  unfold Minesweeper_init. split.
  - destruct draws; cbn; by rewrite decide_False
      by (unfold len; rewrite size_empty; lia).
  - intros Hm Hd.
    destruct draws; cbn;
      rewrite decide_True by (unfold len; rewrite size_empty; lia);
      by rewrite decide_True.
Qed.

(** X21. From the constructor to the engine.  On a board the constructor
    built, an engine fed with true clues only ever puts in [mines] cells
    where the constructor placed a mine, and never puts such a cell in
    [safes]. *)
Theorem engine_agrees_with_constructor (height width n : Z)
    (draws : list Cell) (G : Game) (st : MinesweeperAI) :
  draws_in_range height width draws →
  Minesweeper_init height width n draws = Built G →
  reachable (field G) st →
  mines st ⊆ placed G ∧ safes st ## placed G.
Proof.
  intros Hr HG Hst%reachable_sound.
  unfold Minesweeper_init in HG.
  apply place_mines_invariant in HG as (_ & _ & _ & Hms & _ & _);
    [|apply empty_board_wf| |exact Hr].
  2:{ intros c. split; [intros H; by apply not_elem_of_empty in H|].
      intros H. by apply empty_board_no_mine in H. }
  split.
  - intros c Hc. apply Hms. by eapply sound_mines.
  - apply elem_of_disjoint. intros c Hs Hp.
    eapply sound_safes; [exact Hst|exact Hs|]. by apply Hms.
Qed.

(** X21 on the 2 x 2 board with mines at (0,0) and (1,1), after the clue of
    (0,1). *)
Lemma engine_agrees_with_constructor_witness :
  let draws := [(0, 0); (1, 1)] in
  let G := {| field := mkGame 2 2 [[true; false]; [false; true]];
              placed := {[ (0, 0); (1, 1) ]}; mines_found := ∅ |} in
  let st := (add_knowledge (0, 1) 2 (init 2 2)).1 in
  draws_in_range 2 2 draws
  ∧ Minesweeper_init 2 2 2 draws = Built G
  ∧ reachable (field G) st
  ∧ mines st ⊆ placed G ∧ safes st ## placed G.
Proof.
  intros draws G st.
  assert (draws_in_range 2 2 draws) as H1
    by (apply (bool_decide_unpack _); vm_compute; reflexivity).
  assert (Minesweeper_init 2 2 2 draws = Built G) as H2.
  { vm_compute. reflexivity. }
  assert (reachable (field G) st) as H3.
  { apply (reachable_add (field G) (init 2 2) (0, 1) 2);
      [|vm_compute; reflexivity|vm_compute; reflexivity].
    apply (reachable_init (field G)). }
  split; [exact H1|]. split; [exact H2|]. split; [exact H3|].
  exact (engine_agrees_with_constructor 2 2 2 draws G st H1 H2 H3).
Defined.

(** ** The selectors after a clue *)

Lemma py_index_elem {A} (l : list A) (i : Z) (x : A) :
  py_index l i = Some x → x ∈ l.
Proof.
  unfold py_index. repeat case_decide; try discriminate;
    apply list_elem_of_lookup_2.
Qed.

(** X22. A cell that was revealed is not proposed again: after
    [add_knowledge(cell, count)], whatever the clue and whether or not the
    call raised, neither [make_safe_move] nor [make_random_move] hands back
    [cell]. *)
Theorem played_cell_not_proposed (cell : Cell) (n : Z) (st : MinesweeperAI)
    (pop : cellset → Cell) (listing : cellset → list Cell)
    (randint : Z → Z → Z) :
  pop_contract pop → listing_contract listing →
  (make_safe_move pop (add_knowledge cell n st).1).2 ≠ Chosen cell
  ∧ (make_random_move listing randint (add_knowledge cell n st).1).2
    ≠ Chosen cell.
Proof.
  intros Hpop Hlist.
  assert (cell ∈ moves_made (add_knowledge cell n st).1) as Hin.
  { rewrite add_knowledge_by_value. unfold add_knowledge_val.
    destruct (add_knowledge_direct_frame cell n st) as (_ & _ & Hm & _).
    destruct (consolidate_cells_settles (add_knowledge_direct cell n st))
      as (_ & _ & Hm' & _).
    rewrite Hm', Hm. apply elem_of_union_l. by apply elem_of_singleton. }
  revert Hin. generalize (add_knowledge cell n st).1. intros st' Hin. split.
  - unfold make_safe_move. case_decide as Hne; [|discriminate]. cbn.
    intros [= E].
    assert (pop (safes st' ∖ moves_made st') ∈ safes st' ∖ moves_made st') as Hp.
    { apply Hpop. intros E'. rewrite E' in Hne. unfold len in Hne.
      rewrite size_empty in Hne. lia. }
    rewrite E in Hp. apply elem_of_difference in Hp. tauto.
  - unfold make_random_move. case_decide; [discriminate|].
    destruct (py_index _ _) as [c|] eqn:Ec; [|discriminate]. cbn.
    intros [= ->]. apply py_index_elem in Ec.
    apply (elem_of_random_list listing st' cell Hlist) in Ec.
    unfold random_candidates in Ec. rewrite !elem_of_difference in Ec. tauto.
Qed.

(** X22 with the pop of the first element and the listing of [elements],
    after the clue of the corner of a 3 x 3 grid. *)
Lemma played_cell_not_proposed_witness :
  pop_contract pop_first ∧ listing_contract elements
  ∧ (make_safe_move pop_first (add_knowledge (2, 2) 0 (init 3 3)).1).2
    ≠ Chosen (2, 2)
  ∧ (make_random_move elements randint_low
       (add_knowledge (2, 2) 0 (init 3 3)).1).2
    ≠ Chosen (2, 2).
Proof.
  split; [exact pop_first_contract|]. split; [exact elements_listing_contract|].
  exact (played_cell_not_proposed (2, 2) 0 (init 3 3) pop_first elements
           randint_low pop_first_contract elements_listing_contract).
Defined.

(** X17. The loops of [consolidate_cells] end.  Each loop is given as many
    steps as the list is long when it starts; although the bodies delete
    from the list they iterate, giving the loops any number of further
    steps changes nothing: the iterators are exhausted by then. *)
Theorem consolidate_cells_loops_end (st : MinesweeperAI) (extra1 extra2 : nat) :
  resolve_loop (length (knowledge st) + extra1) 0 st >>>
    (λ st', outer_loop (length (knowledge st') + extra2) 0 st')
  = consolidate_cells st.
Proof.
  rewrite consolidate_cells_by_value, <- (consolidate_cells_fuel st extra1 extra2).
  unfold and_then.
  destruct (resolve_loop _ 0 st) as [st' []]; cbn; [|reflexivity].
  apply outer_loop_by_value.
Qed.

(** ** The second loop from index 257 on *)

Lemma inner_loop_quiet_prefix st idx1 s1 : ∀ n fuel idx2,
  (∀ j s2, (idx2 ≤ j < idx2 + n)%nat → idx1 ≠ j ∨ (256 < idx1)%nat →
           knowledge st !! j = Some s2 → ¬ rule_B_enabled s1 s2) →
  (idx2 + n ≤ length (knowledge st))%nat →
  inner_loop_val (n + fuel) idx1 s1 idx2 st
  = inner_loop_val fuel idx1 s1 (idx2 + n) st.
Proof.
  induction n as [|n IH]; intros fuel idx2 HB Hlen.
  - by rewrite Nat.add_0_r.
  - cbn [Nat.add inner_loop_val].
    destruct (lookup_lt_is_Some_2 (knowledge st) idx2 ltac:(lia)) as [s2 E].
    rewrite E.
    assert ((if decide (idx1 ≠ idx2 ∨ (256 < idx1)%nat)
             then subset_step_val s1 s2 st else (st, Returned))
            = (st, Returned)) as ->.
    { case_decide as Hg; [|reflexivity].
      apply subset_step_quiet. apply (HB idx2); [lia|exact Hg|exact E]. }
    rewrite and_then_returned, IH.
    + f_equal. lia.
    + intros j s2' Hj. apply HB. lia.
    + lia.
Qed.

Lemma outer_loop_quiet_prefix st :
  (∀ idx1 idx2 s1 s2, idx1 ≠ idx2 → knowledge st !! idx1 = Some s1 →
                      knowledge st !! idx2 = Some s2 → ¬ rule_B_enabled s1 s2) →
  ∀ n fuel idx1,
  (idx1 + n ≤ 257)%nat → (idx1 + n ≤ length (knowledge st))%nat →
  outer_loop_val (n + fuel) idx1 st = outer_loop_val fuel (idx1 + n) st.
Proof.
  intros HB. induction n as [|n IH]; intros fuel idx1 Hn Hlen.
  - by rewrite Nat.add_0_r.
  - cbn [Nat.add outer_loop_val].
    destruct (lookup_lt_is_Some_2 (knowledge st) idx1 ltac:(lia)) as [s1 E].
    rewrite E, inner_loop_quiet.
    + rewrite and_then_returned, IH by lia. f_equal. lia.
    + intros idx2 s2 [Hne|Hbig] E2; [by eapply HB|lia].
Qed.

Lemma quiescent_pairs st :
  quiescent st →
  ∀ idx1 idx2 s1 s2, idx1 ≠ idx2 → knowledge st !! idx1 = Some s1 →
                     knowledge st !! idx2 = Some s2 → ¬ rule_B_enabled s1 s2.
Proof.
  intros [_ HB] idx1 idx2 s1 s2 Hne H1%elem_of_indexed H2%elem_of_indexed.
  rewrite Forall_forall in HB. specialize (HB _ H1).
  rewrite Forall_forall in HB. exact (HB _ H2 Hne).
Qed.

Lemma rule_B_enabled_refl s : rule_B_enabled s s.
Proof. split; [reflexivity|by left]. Qed.

(** In a state in which no rule applies the run of the second loop comes
    down to the turn of index 257, where the sentence meets itself. *)
Lemma consolidate_cells_turn_257 st s1 m :
  quiescent st → length (knowledge st) = (257 + S m)%nat →
  knowledge st !! 257%nat = Some s1 →
  consolidate_cells st
  = (inner_loop_val m 257 s1 258
       (set_knowledge (delete 257%nat (knowledge st)) st))
    >>> outer_loop_val m 258.
Proof.
  intros Hq Hlen E. pose proof (quiescent_pairs st Hq) as HB.
  rewrite consolidate_cells_by_value. unfold consolidate_cells_val.
  rewrite resolve_loop_quiet by apply Hq. rewrite and_then_returned.
  rewrite Hlen.
  rewrite (outer_loop_quiet_prefix st HB 257 (S m) 0) by lia.
  cbn [Nat.add outer_loop_val]. rewrite E, Hlen.
  rewrite (inner_loop_quiet_prefix st 257 s1 257 (S m) 0);
    [|intros j s2 Hj _ E2; apply (HB 257%nat j); [lia|exact E|exact E2]|lia].
  cbn [Nat.add inner_loop_val]. rewrite E.
  rewrite decide_True by (right; lia).
  unfold subset_step_val. rewrite decide_True by reflexivity.
  rewrite decide_True by reflexivity.
  destruct (list_remove_cases s1 st) as [(k & Hk & ->)|[Hnot _]].
  - destruct (decide (k = 257%nat)) as [->|Hne]; [reflexivity|].
    destruct (HB k 257%nat s1 s1 Hne Hk E). apply rule_B_enabled_refl.
  - destruct Hnot. by eapply list_elem_of_lookup_2.
Qed.

(** What the turns after the first removal do: they take sentences out of
    the list and nothing else.  [K] is the list of the state in which no
    rule applied; its sentences are pairwise different and only a sentence
    and itself meet a condition of Rule B. *)
Section SelfComparison.

Variable st : MinesweeperAI.
Hypothesis st_quiescent : quiescent st.

Lemma quiescent_values s1 s2 :
  s1 ∈ knowledge st → s2 ∈ knowledge st → s1 ≠ s2 → ¬ rule_B_enabled s1 s2.
Proof.
  intros (i & Hi)%list_elem_of_lookup (j & Hj)%list_elem_of_lookup Hne.
  apply (quiescent_pairs st st_quiescent i j); [|exact Hi|exact Hj].
  intros ->. rewrite Hi in Hj. by injection Hj.
Qed.

Lemma subset_step_sublist s1 s2 l :
  l `sublist_of` knowledge st → s1 ∈ knowledge st → s2 ∈ l →
  ∃ l', subset_step_val s1 s2 (set_knowledge l st) = (set_knowledge l' st, Returned)
        ∧ l' `sublist_of` l.
Proof.
  intros Hsub H1 H2. destruct (decide (s1 = s2)) as [->|Hne].
  - unfold subset_step_val. rewrite !decide_True by reflexivity.
    destruct (list_remove_cases s2 (set_knowledge l st))
      as [(k & Hk & ->)|[Hnot _]].
    + exists (delete k l). split; [reflexivity|apply sublist_delete].
    + by destruct Hnot.
  - exists l. split; [|reflexivity]. apply subset_step_quiet.
    apply quiescent_values; [exact H1| |exact Hne].
    by eapply elem_of_sublist.
Qed.

Lemma inner_loop_sublist idx1 s1 : s1 ∈ knowledge st →
  ∀ fuel idx2 l, l `sublist_of` knowledge st →
  ∃ l', inner_loop_val fuel idx1 s1 idx2 (set_knowledge l st)
        = (set_knowledge l' st, Returned)
        ∧ l' `sublist_of` l.
Proof.
  intros H1. induction fuel as [|fuel IH]; intros idx2 l Hsub.
  { exists l. split; reflexivity. }
  cbn [inner_loop_val]. cbn [knowledge set_knowledge].
  destruct (l !! idx2) as [s2|] eqn:E; [|exists l; split; reflexivity].
  case_decide as Hg.
  - destruct (subset_step_sublist s1 s2 l Hsub H1) as (l1 & -> & Hl1).
    { by eapply list_elem_of_lookup_2. }
    rewrite and_then_returned.
    destruct (IH (S idx2) l1) as (l2 & -> & Hl2); [by etrans|].
    exists l2. split; [reflexivity|by etrans].
  - rewrite and_then_returned. apply IH, Hsub.
Qed.

Lemma outer_loop_sublist : ∀ fuel idx1 l, l `sublist_of` knowledge st →
  ∃ l', outer_loop_val fuel idx1 (set_knowledge l st)
        = (set_knowledge l' st, Returned)
        ∧ l' `sublist_of` l.
Proof.
  induction fuel as [|fuel IH]; intros idx1 l Hsub.
  { exists l. split; reflexivity. }
  cbn [outer_loop_val]. cbn [knowledge set_knowledge].
  destruct (l !! idx1) as [s1|] eqn:E; [|exists l; split; reflexivity].
  destruct (inner_loop_sublist idx1 s1) with (fuel := length l) (idx2 := 0%nat)
    (l := l) as (l1 & -> & Hl1); [|exact Hsub|].
  { eapply elem_of_sublist; [|exact Hsub]. by eapply list_elem_of_lookup_2. }
  rewrite and_then_returned.
  destruct (IH (S idx1) l1) as (l2 & -> & Hl2); [by etrans|].
  exists l2. split; [reflexivity|by etrans].
Qed.

End SelfComparison.

(** X23. From index 257 on a sentence meets itself.  In a state in which no
    rule applies and that holds more than 257 sentences, the second loop
    reaches the index 257, where [idx1 is not idx2] holds of the sentence
    and itself: the sentence has the cells of itself and is removed.
    [consolidate_cells] returns, marks no cell, and leaves some of the
    sentences of the list without its element of index 257, in their order;
    with 258 sentences it leaves all of them but that one. *)
Theorem consolidate_cells_meets_itself (st : MinesweeperAI) :
  quiescent st → (257 < length (knowledge st))%nat →
  ∃ l, consolidate_cells st = (set_knowledge l st, Returned)
       ∧ l `sublist_of` delete 257%nat (knowledge st)
       ∧ (length (knowledge st) = 258%nat → l = delete 257%nat (knowledge st)).
Proof.
  intros Hq Hlen.
  destruct (lookup_lt_is_Some_2 (knowledge st) 257 Hlen) as [s1 E].
  assert (∃ m, length (knowledge st) = (257 + S m)%nat) as [m Hm]
    by (exists (length (knowledge st) - 258)%nat; lia).
  rewrite (consolidate_cells_turn_257 st s1 m Hq Hm E).
  destruct m as [|m].
  - exists (delete 257%nat (knowledge st)). by repeat split.
  - assert (delete 257%nat (knowledge st) `sublist_of` knowledge st) as Hd
      by apply sublist_delete.
    destruct (inner_loop_sublist st Hq 257 s1) with (fuel := S m)
      (idx2 := 258%nat) (l := delete 257%nat (knowledge st))
      as (l1 & -> & Hl1); [by eapply list_elem_of_lookup_2|exact Hd|].
    rewrite and_then_returned.
    destruct (outer_loop_sublist st Hq (S m) 258 l1) as (l2 & -> & Hl2);
      [by etrans|].
    exists l2. split; [reflexivity|]. split; [by etrans|]. lia.
Qed.

Lemma long_kb_quiescent : quiescent long_kb.
Proof.
  assert (∀ i s, knowledge long_kb !! i = Some s →
                 s = mkSentence {[ (0, 2 * Z.of_nat i);
                                   (0, 2 * Z.of_nat i + 1) ]} 1) as Hlook.
  { intros i s. unfold long_kb. cbn [knowledge set_knowledge].
    rewrite list_lookup_fmap.
    destruct (seqZ 0 258 !! i) as [k|] eqn:E; [|discriminate].
    apply lookup_seqZ in E as [-> _]. cbn. by intros [= <-]. }
  split.
  - apply Forall_forall. intros s (i & Hi)%list_elem_of_lookup.
    rewrite (Hlook i s Hi). unfold rule_A_enabled, len. cbn [cells count].
    rewrite size_union, !size_singleton.
    + lia.
    + apply disjoint_singleton_l. rewrite elem_of_singleton. intros [=]. lia.
  - apply Forall_forall. intros [i1 s1] H1. apply Forall_forall.
    intros [i2 s2] H2. cbn [fst snd]. intros Hne [Hsub _].
    apply elem_of_lookup_imap_1 in H1 as (i & s & [= -> ->] & Hi).
    apply elem_of_lookup_imap_1 in H2 as (j & s' & [= -> ->] & Hj).
    rewrite (Hlook i s Hi), (Hlook j s' Hj) in Hsub. cbn [cells] in Hsub.
    assert (((0, 2 * Z.of_nat i) : Cell)
            ∈ ({[ (0, 2 * Z.of_nat j); (0, 2 * Z.of_nat j + 1) ]} : gset Cell))
      as Hin by (apply Hsub, elem_of_union_l; by apply elem_of_singleton).
    apply elem_of_union in Hin as [Hin|Hin];
      apply elem_of_singleton in Hin; injection Hin; lia.
Qed.

(** X23 on [long_kb], 258 sentences that no rule relates. *)
Lemma consolidate_cells_meets_itself_witness :
  quiescent long_kb ∧ (257 < length (knowledge long_kb))%nat
  ∧ ∃ l, consolidate_cells long_kb = (set_knowledge l long_kb, Returned)
         ∧ l `sublist_of` delete 257%nat (knowledge long_kb)
         ∧ (length (knowledge long_kb) = 258%nat
            → l = delete 257%nat (knowledge long_kb)).
Proof.
  assert (257 < length (knowledge long_kb))%nat as Hlen
    by (unfold long_kb; cbn [knowledge set_knowledge];
        rewrite length_fmap, length_seqZ; lia).
  split; [exact long_kb_quiescent|]. split; [exact Hlen|].
  exact (consolidate_cells_meets_itself long_kb long_kb_quiescent Hlen).
Defined.
